(** * Channel-synchronised fakes: the grocery list and its FakeClient

    A shallow embedding of the [API] and its [HTTPClient] (note.go), of the
    [GroceryList], and of the [FakeClient] with its test (note_test.go).
    Go code that talks over the [Calls] channel or to [testing.T] becomes a
    term of a small command tree ([prog]); two goroutines sharing the one
    channel of a [FakeClient] are run by a small-step relation. *)

From Stdlib Require Import List String Bool Arith Lia.
Import ListNotations.
Local Open Scope string_scope.
Local Open Scope list_scope.

Set Implicit Arguments.

(* ------------------------------------------------------------------ *)
(** ** Go values *)

(** A Go pointer [*T]: [None] is [nil]. *)
Definition ptr (T : Type) : Type := option T.

(** A Go slice [[]T]: the nil slice is kept apart from an empty one. *)
Inductive slice (T : Type) : Type :=
| nil_slice
| slice_of (elems : list T).
Arguments nil_slice {T}.

Definition elems_of {T} (s : slice T) : list T :=
  match s with nil_slice => [] | slice_of l => l end.

Definition len {T} (s : slice T) : nat := List.length (elems_of s).

Definition is_nil_slice {T} (s : slice T) : bool :=
  match s with nil_slice => true | slice_of _ => false end.

(** The built-in [error] interface: [nil], or some error value. *)
Inductive error : Type :=
| nil_error
| errorString (s : string).

(** [type Note struct { Text string }] *)
Record Note : Type := mkNote { Text : string }.

(** [type allCall struct{}] *)
Inductive allCall : Type := mk_allCall.

(** [type allResp struct { notes []*Note; err error }] *)
Record allResp : Type :=
  mk_allResp { allResp_notes : slice (ptr Note); allResp_err : error }.

(** [type createCall struct{ note *Note }] *)
Record createCall : Type := mk_createCall { createCall_note : ptr Note }.

(** [type createResp struct{ err error }] *)
Record createResp : Type := mk_createResp { createResp_err : error }.

(** The dynamic types that travel over the channel. *)
Inductive gotype : Type :=
| T_allCall | T_allResp | T_createCall | T_createResp.

(** A non-nil value of [interface{}]: a pointer (maybe a typed nil one) to
    one of the four message structs. *)
Inductive dyn : Type :=
| dyn_allCall (p : ptr allCall)
| dyn_allResp (p : ptr allResp)
| dyn_createCall (p : ptr createCall)
| dyn_createResp (p : ptr createResp).

(** [type Call interface{}]: [None] is the nil interface value. *)
Definition Call : Type := option dyn.

Definition dyn_type (v : Call) : option gotype :=
  match v with
  | None => None
  | Some (dyn_allCall _) => Some T_allCall
  | Some (dyn_allResp _) => Some T_allResp
  | Some (dyn_createCall _) => Some T_createCall
  | Some (dyn_createResp _) => Some T_createResp
  end.

(** Run-time panics the code can raise. *)
Inductive panic : Type :=
| InterfaceConversion (got : option gotype) (want : gotype)
| NilDereference
| IndexOutOfRange
| SendOnClosedChannel
| CloseOfClosedChannel.

(** Arguments handed to [t.Error] and [t.Fatal]. *)
Inductive arg : Type :=
| arg_string (s : string)
| arg_note (n : ptr Note)
| arg_error (e : error).

(** What [testing.T] has recorded: [t.Error] marks the test failed and
    goes on, [t.Fatal] marks it failed and ends the goroutine. *)
Inductive report : Type :=
| ReportError (args : list arg)
| ReportFatal (args : list arg).

Definition is_fatal (r : report) : bool :=
  match r with ReportFatal _ => true | ReportError _ => false end.

(* ------------------------------------------------------------------ *)
(** ** Decidable equalities *)

Definition Note_eq_dec (a b : Note) : {a = b} + {a <> b}.
Proof. decide equality. apply string_dec. Defined.

Definition error_eq_dec (a b : error) : {a = b} + {a <> b}.
Proof. decide equality. apply string_dec. Defined.

Definition slice_eq_dec {T} (dec : forall a b : T, {a = b} + {a <> b})
  (a b : slice T) : {a = b} + {a <> b}.
Proof. decide equality. apply list_eq_dec, dec. Defined.

Definition is_nil_error (e : error) : bool :=
  match e with nil_error => true | errorString _ => false end.

(* ------------------------------------------------------------------ *)
(** ** Commands of one goroutine *)

(** The code of one goroutine, as far as the channel [c.Calls] and the
    test handle [t] see it.  [Recv] hands its continuation the two results
    of [v, more := <-c.Calls]. *)
Inductive prog (A : Type) : Type :=
| Ret (a : A)
| Send (v : Call) (k : prog A)
| Recv (k : Call * bool -> prog A)
| CloseChan (k : prog A)
| TError (args : list arg) (k : prog A)
| TFatal (args : list arg)
| Exit
| Panic (p : panic).
Arguments Ret {A} a.
Arguments Send {A} v k.
Arguments Recv {A} k.
Arguments CloseChan {A} k.
Arguments TError {A} args k.
Arguments TFatal {A} args.
Arguments Exit {A}.
Arguments Panic {A} p.

Fixpoint bind {A B} (p : prog A) (f : A -> prog B) : prog B :=
  match p with
  | Ret a => f a
  | Send v k => Send v (bind k f)
  | Recv k => Recv (fun r => bind (k r) f)
  | CloseChan k => CloseChan (bind k f)
  | TError args k => TError args (bind k f)
  | TFatal args => TFatal args
  | Exit => Exit
  | Panic p => Panic p
  end.

Declare Scope prog_scope.
Delimit Scope prog_scope with prog.
Notation "x <- p ;; q" := (bind p (fun x => q))
  (at level 61, p at next level, right associativity) : prog_scope.
Notation "' pat <- p ;; q" := (bind p (fun x => match x with pat => q end))
  (at level 61, pat pattern, p at next level, right associativity) : prog_scope.
Notation "p ;; q" := (bind p (fun _ => q))
  (at level 61, right associativity) : prog_scope.
Local Open Scope prog_scope.

(** [c.Calls <- v] *)
Definition send (v : Call) : prog unit := Send v (Ret tt).

(** [<-c.Calls], one result. *)
Definition recv : prog Call := Recv (fun r => Ret (fst r)).

(** [v, more := <-c.Calls] *)
Definition recv2 : prog (Call * bool) := Recv (fun r => Ret r).

(** [*p] *)
Definition deref {T} (p : ptr T) : prog T :=
  match p with
  | Some a => Ret a
  | None => Panic NilDereference
  end.

(** [s[i]] *)
Definition index {T} (s : slice T) (i : nat) : prog T :=
  match nth_error (elems_of s) i with
  | Some a => Ret a
  | None => Panic IndexOutOfRange
  end.

(** The four single-result type assertions of the test double; each panics
    when the dynamic type of [v] is another one, or [v] is the nil
    interface. *)
Definition assert_allCall (v : Call) : prog (ptr allCall) :=
  match v with
  | Some (dyn_allCall p) => Ret p
  | _ => Panic (InterfaceConversion (dyn_type v) T_allCall)
  end.

Definition assert_allResp (v : Call) : prog (ptr allResp) :=
  match v with
  | Some (dyn_allResp p) => Ret p
  | _ => Panic (InterfaceConversion (dyn_type v) T_allResp)
  end.

Definition assert_createCall (v : Call) : prog (ptr createCall) :=
  match v with
  | Some (dyn_createCall p) => Ret p
  | _ => Panic (InterfaceConversion (dyn_type v) T_createCall)
  end.

Definition assert_createResp (v : Call) : prog (ptr createResp) :=
  match v with
  | Some (dyn_createResp p) => Ret p
  | _ => Panic (InterfaceConversion (dyn_type v) T_createResp)
  end.

(* ------------------------------------------------------------------ *)
(** ** note.go: the API and the HTTP client *)

(** [type API interface { Create(n *Note) error; All() ([]*Note, error) }]:
    an interface value is the method table of its receiver. *)
Record API : Type := mkAPI {
  Create : ptr Note -> prog error;
  All : prog (slice (ptr Note) * error)
}.

Module HTTPClient.

Definition Create (n : ptr Note) : prog error := Ret nil_error.

Definition All : prog (slice (ptr Note) * error) :=
  Ret (slice_of [], nil_error).

Definition as_API : API := mkAPI Create All.

End HTTPClient.

(* ------------------------------------------------------------------ *)
(** ** note_test.go: the FakeClient

    A test builds one [FakeClient]; its channel [Calls] and its [t] are the
    shared state of the run (see [shared] below), so the methods take no
    receiver here. *)

Module FakeClient.

Definition the_allCall : Call := Some (dyn_allCall (Some mk_allCall)).

Definition the_allResp (notes : slice (ptr Note)) (err : error) : Call :=
  Some (dyn_allResp (Some (mk_allResp notes err))).

Definition the_createCall (n : ptr Note) : Call :=
  Some (dyn_createCall (Some (mk_createCall n))).

Definition the_createResp (err : error) : Call :=
  Some (dyn_createResp (Some (mk_createResp err))).

Definition All : prog (slice (ptr Note) * error) :=
  send the_allCall ;;
  v <- recv ;;
  p <- assert_allResp v ;;
  resp <- deref p ;;
  Ret (allResp_notes resp, allResp_err resp).

Definition Create (n : ptr Note) : prog error :=
  send (the_createCall n) ;;
  v <- recv ;;
  p <- assert_createResp v ;;
  resp <- deref p ;;
  Ret (createResp_err resp).

Definition Close : prog unit := CloseChan (Ret tt).

Definition create_mismatch (n actual : ptr Note) : list arg :=
  [arg_string "expected create with"; arg_note n;
   arg_string "but was"; arg_note actual].

Definition AssertCreate (n : ptr Note) (err : error) : prog unit :=
  v <- recv ;;
  p <- assert_createCall v ;;
  call <- deref p ;;
  actual <- deref (createCall_note call) ;;
  expected <- deref n ;;
  (if Note_eq_dec actual expected then Ret tt
   else TError (create_mismatch n (createCall_note call)) (Ret tt)) ;;
  send (the_createResp err).

Definition AssertAll (notes : slice (ptr Note)) (err : error) : prog unit :=
  v <- recv ;;
  call <- assert_allCall v ;;
  match call with
  | None => TError [arg_string "No all call"] (Ret tt)
  | Some _ => Ret tt
  end ;;
  send (the_allResp notes err).

Definition more_calls : list arg := [arg_string "Did not expect more calls"].

Definition AssertDone : prog unit :=
  r <- recv2 ;;
  if snd r then TFatal more_calls else Ret tt.

Definition as_API : API := mkAPI Create All.

End FakeClient.

(* ------------------------------------------------------------------ *)
(** ** The list under test *)

Record GroceryList : Type := mkGroceryList { Store : API }.

Definition New : GroceryList := mkGroceryList HTTPClient.as_API.

(** The assignment [list.API = client] of the test (the field is named
    [Store] in the article and [API] in the code the test runs on). *)
Definition set_Store (g : GroceryList) (api : API) : GroceryList :=
  mkGroceryList api.

Definition AddItem (g : GroceryList) (item : string) : prog error :=
  Create (Store g) (Some (mkNote item)).

(** The loop [for i := range notes { items[i] = notes[i].Text }]. *)
Fixpoint texts (notes : list (ptr Note)) : prog (list string) :=
  match notes with
  | [] => Ret []
  | p :: rest =>
      n <- deref p ;;
      items <- texts rest ;;
      Ret (Text n :: items)
  end.

Definition Items (g : GroceryList) : prog (slice string * error) :=
  r <- All (Store g) ;;
  let (notes, err) := r in
  if is_nil_error err then
    items <- texts (elems_of notes) ;;
    Ret (slice_of items, nil_error)
  else Ret (slice_of [], err).

(** [TestGroceryList]: the body of the test after [go func() {...}()], and
    the goroutine it starts.  [list.API = client] is the setter
    injection. *)
Module TestGroceryList.

Definition list : GroceryList := set_Store New FakeClient.as_API.

Definition apples : Note := mkNote "apples".

Definition goroutine : prog unit :=
  FakeClient.AssertCreate (Some apples) nil_error ;;
  FakeClient.AssertAll (slice_of [Some apples]) nil_error ;;
  FakeClient.Close.

Definition body : prog unit :=
  _ <- AddItem list "apples" ;;
  r <- Items list ;;
  let (items, err) := r in
  (if is_nil_error err then Ret tt else TFatal [arg_error err]) ;;
  (if Nat.eqb (len items) 1 then Ret tt
   else TFatal [arg_string "expected one item"]) ;;
  first <- index items 0 ;;
  (if string_dec first "apples" then Ret tt
   else TFatal [arg_string "expected apples"]) ;;
  FakeClient.AssertDone.

End TestGroceryList.

(* ------------------------------------------------------------------ *)
(** ** What one goroutine does: events and local runs *)

(** One observable step of a goroutine. *)
Inductive event : Type :=
| EvSend (v : Call)
| EvRecv (v : Call) (more : bool)
| EvSendClosed
| EvClose
| EvCloseClosed
| EvError (args : list arg)
| EvFatal (args : list arg).

Inductive lstep {A} : prog A -> event -> prog A -> Prop :=
| l_send v k : lstep (Send v k) (EvSend v) k
| l_send_closed v k :
    lstep (Send v k) EvSendClosed (Panic SendOnClosedChannel)
| l_recv k v more : lstep (Recv k) (EvRecv v more) (k (v, more))
| l_close k : lstep (CloseChan k) EvClose k
| l_close_closed k :
    lstep (CloseChan k) EvCloseClosed (Panic CloseOfClosedChannel)
| l_error args k : lstep (TError args k) (EvError args) k
| l_fatal args : lstep (TFatal args) (EvFatal args) Exit.

(** How a goroutine ends. *)
Inductive outcome (A : Type) : Type :=
| Returned (a : A)
| Exited
| Panicked (p : panic).
Arguments Returned {A} a.
Arguments Exited {A}.
Arguments Panicked {A} p.

(** [exec p tr o]: along the events [tr], whatever the other goroutines
    do, [p] runs to its end [o]. *)
Inductive exec {A} : prog A -> list event -> outcome A -> Prop :=
| exec_ret a : exec (Ret a) [] (Returned a)
| exec_exit : exec Exit [] Exited
| exec_panic p : exec (Panic p) [] (Panicked p)
| exec_step p e p' tr o :
    lstep p e p' -> exec p' tr o -> exec p (e :: tr) o.

(* ------------------------------------------------------------------ *)
(** ** The shared state: the channel and the test handle *)

Inductive tid : Type := Driver | Verifier.

Inductive label : Type :=
| Sync (from : tid) (v : Call)
| Solo (who : tid) (e : event).

(** The channel [c.Calls] (capacity, buffered values, closed or not), what
    [t] has recorded, and the history of the run. *)
Record shared : Type := mkShared {
  cap : nat;
  buf : list Call;
  closed : bool;
  failures : list report;
  trace : list label
}.

(** [NewFakeClient]: [make(chan Call)] is an open channel of capacity 0;
    the fresh [t] has recorded nothing. *)
Definition NewFakeClient : shared := mkShared 0 [] false [] [].

Definition set_buf (s : shared) (b : list Call) : shared :=
  mkShared (cap s) b (closed s) (failures s) (trace s).

Definition set_closed (s : shared) : shared :=
  mkShared (cap s) (buf s) true (failures s) (trace s).

Definition add_failure (s : shared) (r : report) : shared :=
  mkShared (cap s) (buf s) (closed s) (failures s ++ [r]) (trace s).

Definition add_trace (s : shared) (l : label) : shared :=
  mkShared (cap s) (buf s) (closed s) (failures s) (trace s ++ [l]).

(** When the shared state lets a goroutine do an event on its own, and
    what the event does to it. *)
Inductive allows : shared -> event -> shared -> Prop :=
| a_send s v :
    closed s = false -> List.length (buf s) < cap s ->
    allows s (EvSend v) (set_buf s (buf s ++ [v]))
| a_send_closed s : closed s = true -> allows s EvSendClosed s
| a_recv_buf s x rest :
    buf s = x :: rest -> allows s (EvRecv x true) (set_buf s rest)
| a_recv_closed s :
    buf s = [] -> closed s = true -> allows s (EvRecv None false) s
| a_close s : closed s = false -> allows s EvClose (set_closed s)
| a_close_closed s : closed s = true -> allows s EvCloseClosed s
| a_error s args :
    allows s (EvError args) (add_failure s (ReportError args))
| a_fatal s args :
    allows s (EvFatal args) (add_failure s (ReportFatal args)).

(* ------------------------------------------------------------------ *)
(** ** Two goroutines over one channel *)

Record config (A B : Type) : Type := mkConfig {
  driver : prog A;
  verifier : prog B;
  sh : shared
}.

Definition panicking {A} (p : prog A) : option panic :=
  match p with Panic x => Some x | _ => None end.

(** An unrecovered panic of either goroutine ends the whole process. *)
Definition crash_of {A B} (c : config A B) : option panic :=
  match panicking (driver c) with
  | Some x => Some x
  | None => panicking (verifier c)
  end.

Inductive step {A B} : config A B -> config A B -> Prop :=
| step_driver c e p' s' :
    crash_of c = None ->
    lstep (driver c) e p' -> allows (sh c) e s' ->
    step c (mkConfig p' (verifier c) (add_trace s' (Solo Driver e)))
| step_verifier c e q' s' :
    crash_of c = None ->
    lstep (verifier c) e q' -> allows (sh c) e s' ->
    step c (mkConfig (driver c) q' (add_trace s' (Solo Verifier e)))
| step_sync_dv c v p' q' :
    crash_of c = None ->
    closed (sh c) = false -> buf (sh c) = [] ->
    lstep (driver c) (EvSend v) p' ->
    lstep (verifier c) (EvRecv v true) q' ->
    step c (mkConfig p' q' (add_trace (sh c) (Sync Driver v)))
| step_sync_vd c v p' q' :
    crash_of c = None ->
    closed (sh c) = false -> buf (sh c) = [] ->
    lstep (verifier c) (EvSend v) q' ->
    lstep (driver c) (EvRecv v true) p' ->
    step c (mkConfig p' q' (add_trace (sh c) (Sync Verifier v))).

Inductive steps {A B} : config A B -> config A B -> Prop :=
| steps_refl c : steps c c
| steps_more c c' c'' : steps c c' -> step c' c'' -> steps c c''.

(** The same semantics as a function: the move a goroutine can make on its
    own, the rendezvous of a sender with a receiver, and all successors of
    a configuration. *)
Definition solo_move {A} (p : prog A) (s : shared)
  : option (event * prog A * shared) :=
  match p with
  | Send v k =>
      if closed s then Some (EvSendClosed, Panic SendOnClosedChannel, s)
      else if Nat.ltb (List.length (buf s)) (cap s)
           then Some (EvSend v, k, set_buf s (buf s ++ [v]))
           else None
  | Recv k =>
      match buf s with
      | x :: rest => Some (EvRecv x true, k (x, true), set_buf s rest)
      | [] => if closed s then Some (EvRecv None false, k (None, false), s)
              else None
      end
  | CloseChan k =>
      if closed s then Some (EvCloseClosed, Panic CloseOfClosedChannel, s)
      else Some (EvClose, k, set_closed s)
  | TError args k =>
      Some (EvError args, k, add_failure s (ReportError args))
  | TFatal args => Some (EvFatal args, Exit, add_failure s (ReportFatal args))
  | Ret _ | Exit | Panic _ => None
  end.

Definition sync_move {A B} (p : prog A) (q : prog B) (s : shared)
  : option (Call * prog A * prog B) :=
  match p, q with
  | Send v k, Recv k' =>
      if closed s then None
      else match buf s with
           | [] => Some (v, k, k' (v, true))
           | _ :: _ => None
           end
  | _, _ => None
  end.

Definition opt_list {T} (o : option T) : list T :=
  match o with Some x => [x] | None => [] end.

Definition successors {A B} (c : config A B) : list (config A B) :=
  match crash_of c with
  | Some _ => []
  | None =>
      opt_list
        (match solo_move (driver c) (sh c) with
         | Some (e, p', s') =>
             Some (mkConfig p' (verifier c) (add_trace s' (Solo Driver e)))
         | None => None
         end)
      ++ opt_list
        (match solo_move (verifier c) (sh c) with
         | Some (e, q', s') =>
             Some (mkConfig (driver c) q' (add_trace s' (Solo Verifier e)))
         | None => None
         end)
      ++ opt_list
        (match sync_move (driver c) (verifier c) (sh c) with
         | Some (v, p', q') =>
             Some (mkConfig p' q' (add_trace (sh c) (Sync Driver v)))
         | None => None
         end)
      ++ opt_list
        (match sync_move (verifier c) (driver c) (sh c) with
         | Some (v, q', p') =>
             Some (mkConfig p' q' (add_trace (sh c) (Sync Verifier v)))
         | None => None
         end)
  end.

(** Every run from [c] is finite and ends in a configuration that cannot
    move and satisfies [P]. *)
Inductive always_ends {A B} (P : config A B -> Prop)
  : config A B -> Prop :=
| ae_end c : (forall c', ~ step c c') -> P c -> always_ends P c
| ae_step c :
    (exists c', step c c') ->
    (forall c', step c c' -> always_ends P c') ->
    always_ends P c.

(** A bounded search through all runs, for concrete configurations. *)
Fixpoint check_runs {A B} (fuel : nat) (ok : config A B -> bool)
  (c : config A B) : bool :=
  match successors c with
  | [] => ok c
  | next =>
      match fuel with
      | 0 => false
      | S fuel' => forallb (check_runs fuel' ok) next
      end
  end.

(* ------------------------------------------------------------------ *)
(** ** Sequences of calls and of assertions *)

(** A call of the driver on the double, and what the call returned. *)
Inductive op : Type :=
| OpCreate (n : Note)
| OpAll.

Inductive response : Type :=
| RespCreate (e : error)
| RespAll (notes : slice (ptr Note)) (e : error).

(** An assertion of the verifier, with the values it hands back. *)
Inductive assertion : Type :=
| ACreate (n : Note) (e : error)
| AAll (notes : slice (ptr Note)) (e : error).

Definition run_op (o : op) : prog response :=
  match o with
  | OpCreate n => e <- FakeClient.Create (Some n) ;; Ret (RespCreate e)
  | OpAll => r <- FakeClient.All ;; Ret (RespAll (fst r) (snd r))
  end.

Definition run_assertion (a : assertion) : prog unit :=
  match a with
  | ACreate n e => FakeClient.AssertCreate (Some n) e
  | AAll notes e => FakeClient.AssertAll notes e
  end.

(** The driver makes the calls in order and goes on with what they
    returned; the verifier makes its assertions in order. *)
Fixpoint drive {A} (ops : list op) (k : list response -> prog A) : prog A :=
  match ops with
  | [] => k []
  | o :: rest => r <- run_op o ;; drive rest (fun rs => k (r :: rs))
  end.

Fixpoint verify {B} (asserts : list assertion) (k : prog B) : prog B :=
  match asserts with
  | [] => k
  | a :: rest => run_assertion a ;; verify rest k
  end.

Definition supplied (a : assertion) : response :=
  match a with
  | ACreate _ e => RespCreate e
  | AAll notes e => RespAll notes e
  end.

(** The assertion is the one written for the call. *)
Definition paired (o : op) (a : assertion) : bool :=
  match o, a with
  | OpCreate _, ACreate _ _ => true
  | OpAll, AAll _ _ => true
  | _, _ => false
  end.

Definition call_of (o : op) : Call :=
  match o with
  | OpCreate n => FakeClient.the_createCall (Some n)
  | OpAll => FakeClient.the_allCall
  end.

Definition reply_of (a : assertion) : Call :=
  match a with
  | ACreate _ e => FakeClient.the_createResp e
  | AAll notes e => FakeClient.the_allResp notes e
  end.

(** The value mismatches of one round: a created note that is not the
    expected one. *)
Definition mismatch (o : op) (a : assertion) : list (list arg) :=
  match o, a with
  | OpCreate n, ACreate n' _ =>
      if Note_eq_dec n n' then []
      else [FakeClient.create_mismatch (Some n') (Some n)]
  | _, _ => []
  end.

Definition round_trace (o : op) (a : assertion) : list label :=
  Sync Driver (call_of o)
    :: map (fun args => Solo Verifier (EvError args)) (mismatch o a)
    ++ [Sync Verifier (reply_of a)].

Fixpoint lockstep (ops : list op) (asserts : list assertion) : list label :=
  match ops, asserts with
  | o :: ops', a :: asserts' => round_trace o a ++ lockstep ops' asserts'
  | _, _ => []
  end.

Fixpoint mismatches (ops : list op) (asserts : list assertion)
  : list report :=
  match ops, asserts with
  | o :: ops', a :: asserts' =>
      map ReportError (mismatch o a) ++ mismatches ops' asserts'
  | _, _ => []
  end.

(** The values a goroutine sent, and the values it received from a
    sender, in a history. *)
Definition tid_eqb (a b : tid) : bool :=
  match a, b with
  | Driver, Driver | Verifier, Verifier => true
  | _, _ => false
  end.

Fixpoint sent_by (t : tid) (tr : list label) : list Call :=
  match tr with
  | [] => []
  | Sync from v :: tr' =>
      if tid_eqb from t then v :: sent_by t tr' else sent_by t tr'
  | Solo who (EvSend v) :: tr' =>
      if tid_eqb who t then v :: sent_by t tr' else sent_by t tr'
  | _ :: tr' => sent_by t tr'
  end.

Fixpoint received_by (t : tid) (tr : list label) : list Call :=
  match tr with
  | [] => []
  | Sync from v :: tr' =>
      if tid_eqb from t then received_by t tr' else v :: received_by t tr'
  | Solo who (EvRecv v true) :: tr' =>
      if tid_eqb who t then v :: received_by t tr' else received_by t tr'
  | _ :: tr' => received_by t tr'
  end.

(** A goroutine that waits on the channel. *)
Definition blocked {A} (p : prog A) : bool :=
  match p with Send _ _ | Recv _ => true | _ => false end.

Definition returned {A} (p : prog A) : option A :=
  match p with Ret a => Some a | _ => None end.

(** The test is reported as failed. *)
Definition test_failed {A B} (c : config A B) : bool :=
  match crash_of c, failures (sh c) with
  | None, [] => false
  | _, _ => true
  end.

(** Call by call, the verifier's assertions are the ones written for the
    driver's calls. *)
Fixpoint all_paired (ops : list op) (asserts : list assertion) : bool :=
  match ops, asserts with
  | [], [] => true
  | o :: ops', a :: asserts' => paired o a && all_paired ops' asserts'
  | _, _ => false
  end.

(** The reply that answers a call: [*createResp] for [*createCall],
    [*allResp] for [*allCall]. *)
Definition reply_type (call : Call) : option gotype :=
  match dyn_type call with
  | Some T_createCall => Some T_createResp
  | Some T_allCall => Some T_allResp
  | _ => None
  end.

(** The start of a test: both goroutines running, a fresh client. *)
Definition start {A B} (d : prog A) (v : prog B) : config A B :=
  mkConfig d v NewFakeClient.

(** The scenario of [TestGroceryList], keeping what the two calls on the
    list returned. *)
Module Scenario.

Definition driver : prog (error * (slice string * error)) :=
  e <- AddItem TestGroceryList.list "apples" ;;
  r <- Items TestGroceryList.list ;;
  FakeClient.AssertDone ;;
  Ret (e, r).

Definition result_eqb (x y : error * (slice string * error)) : bool :=
  if error_eq_dec (fst x) (fst y) then
    if slice_eq_dec string_dec (fst (snd x)) (fst (snd y)) then
      if error_eq_dec (snd (snd x)) (snd (snd y)) then true else false
    else false
  else false.

End Scenario.

Definition is_ret_tt (p : prog unit) : bool :=
  match p with Ret _ => true | _ => false end.

Definition no_failures (s : shared) : bool :=
  match failures s with [] => true | _ :: _ => false end.

(** The checks on the last configuration of a run of the scenario and of
    the test itself. *)
Definition scenario_ok
  (c : config (error * (slice string * error)) unit) : bool :=
  match returned (driver c) with
  | Some r =>
      Scenario.result_eqb r (nil_error, (slice_of ["apples"], nil_error))
  | None => false
  end
  && is_ret_tt (verifier c) && no_failures (sh c) && closed (sh c).

Definition test_ok (c : config unit unit) : bool :=
  is_ret_tt (driver c) && is_ret_tt (verifier c) && negb (test_failed c).

(** Along the events [pre] the goroutine [p] comes to its end [o], and no
    local run of [p] that starts with [pre] does anything else. *)
Definition ends_exactly {A} (p : prog A) (pre : list event) (o : outcome A)
  : Prop :=
  exec p pre o /\
  forall tr o', exec p (pre ++ tr) o' -> tr = [] /\ o' = o.

(** The call is the very one the assertion expects: the same method, and
    for [Create] the same note. *)
Definition agrees (o : op) (a : assertion) : bool :=
  match o, a with
  | OpCreate n, ACreate n' _ => if Note_eq_dec n n' then true else false
  | OpAll, AAll _ _ => true
  | _, _ => false
  end.

(** Call by call, in order, the driver does what the verifier expects,
    and neither has a call or an assertion left over. *)
Fixpoint all_agree (ops : list op) (asserts : list assertion) : bool :=
  match ops, asserts with
  | [], [] => true
  | o :: ops', a :: asserts' => agrees o a && all_agree ops' asserts'
  | _, _ => false
  end.

(** The run did not end in silence: something is reported on [t], or the
    process died of a failed type assertion or of a send on the closed
    channel, or the driver, which is the goroutine of the test function,
    waits on the channel for ever. *)
Definition loud {A B} (c : config A B) : Prop :=
  failures (sh c) <> []
  \/ (exists got want, crash_of c = Some (InterfaceConversion got want))
  \/ crash_of c = Some SendOnClosedChannel
  \/ blocked (driver c) = true.

(** The history pairs the code of the two sides: what the verifier
    received, one receive after the other, are the first calls of the
    driver in their order, and what the driver received are the first
    replies of the verifier in their order. *)
Definition in_order (ops : list op) (asserts : list assertion)
  (tr : list label) : Prop :=
  exists k j,
    sent_by Driver tr = firstn k (map call_of ops)
    /\ received_by Verifier tr = firstn k (map call_of ops)
    /\ sent_by Verifier tr = firstn j (map reply_of asserts)
    /\ received_by Driver tr = firstn j (map reply_of asserts).

(** The same, counted from a history [tr0] already there. *)
Definition in_order_from (tr0 : list label) (ops : list op)
  (asserts : list assertion) (tr : list label) : Prop :=
  exists k j,
    sent_by Driver tr = sent_by Driver tr0 ++ firstn k (map call_of ops)
    /\ received_by Verifier tr =
         received_by Verifier tr0 ++ firstn k (map call_of ops)
    /\ sent_by Verifier tr =
         sent_by Verifier tr0 ++ firstn j (map reply_of asserts)
    /\ received_by Driver tr =
         received_by Driver tr0 ++ firstn j (map reply_of asserts).

(** The exact end of a run of calls against assertions, whatever their
    order, in a test whose driver ends with [AssertDone] and whose
    verifier ends with [Close]; [fs] and [tr] are the reports and the
    history at the start. *)
Fixpoint closing_end (fs : list report) (tr : list label) (ops : list op)
  (asserts : list assertion) (c : config unit unit) : Prop :=
  match ops, asserts with
  | [], [] =>
      driver c = Ret tt /\ verifier c = Ret tt
      /\ closed (sh c) = true
      /\ failures (sh c) = fs
      /\ trace (sh c) =
           tr ++ [Solo Verifier EvClose; Solo Driver (EvRecv None false)]
  | [], _ :: _ =>
      blocked (driver c) = true /\ blocked (verifier c) = true
      /\ crash_of c = None
      /\ failures (sh c) = fs
      /\ trace (sh c) = tr
  | _ :: _, [] =>
      crash_of c = Some SendOnClosedChannel
      /\ failures (sh c) = fs
      /\ trace (sh c) =
           tr ++ [Solo Verifier EvClose; Solo Driver EvSendClosed]
  | o :: ops', a :: asserts' =>
      if paired o a then
        closing_end (fs ++ map ReportError (mismatch o a))
          (tr ++ round_trace o a) ops' asserts' c
      else
        (exists want,
            crash_of c =
              Some (InterfaceConversion (dyn_type (call_of o)) want))
        /\ failures (sh c) = fs
        /\ trace (sh c) = tr ++ [Sync Driver (call_of o)]
  end.

(** The same for a test without [AssertDone] and [Close]: the driver
    returns what its calls returned (seen through [g]). *)
Fixpoint plain_end {A} (g : list response -> A) (fs : list report)
  (tr : list label) (ops : list op) (asserts : list assertion)
  (c : config A unit) : Prop :=
  match ops, asserts with
  | [], [] =>
      driver c = Ret (g []) /\ verifier c = Ret tt
      /\ failures (sh c) = fs
      /\ trace (sh c) = tr
  | [], _ :: _ =>
      driver c = Ret (g []) /\ blocked (verifier c) = true
      /\ failures (sh c) = fs
      /\ trace (sh c) = tr
  | _ :: _, [] =>
      blocked (driver c) = true /\ verifier c = Ret tt
      /\ failures (sh c) = fs
      /\ trace (sh c) = tr
  | o :: ops', a :: asserts' =>
      if paired o a then
        plain_end (fun rs => g (supplied a :: rs))
          (fs ++ map ReportError (mismatch o a))
          (tr ++ round_trace o a) ops' asserts' c
      else
        (exists want,
            crash_of c =
              Some (InterfaceConversion (dyn_type (call_of o)) want))
        /\ failures (sh c) = fs
        /\ trace (sh c) = tr ++ [Sync Driver (call_of o)]
  end.

(** An assertion that no call meets, in a test without [AssertDone]: the
    driver has returned the responses of the assertions that were met,
    nothing is on [t], and only the verifier waits. *)
Definition unmet_in_silence (ops : list op) (asserts : list assertion)
  (c : config (list response) unit) : Prop :=
  driver c = Ret (map supplied (firstn (List.length ops) asserts))
  /\ blocked (verifier c) = true
  /\ failures (sh c) = []
  /\ crash_of c = None
  /\ List.length ops < List.length asserts
  /\ all_agree ops (firstn (List.length ops) asserts) = true.

(** The sentence of the specification on [AssertAll], as it is written:
    on a value of another variant a test failure is reported and the
    response is then sent.  The report is taken in its widest sense, a
    record on [t] or a panic. *)
Definition stated_AssertAll_reports_and_replies (v : Call)
  (notes : slice (ptr Note)) (e : error) : Prop :=
  always_ends
    (fun c =>
       test_failed c = true
       /\ sent_by Verifier (trace (sh c)) = [FakeClient.the_allResp notes e])
    (start (Send v recv) (FakeClient.AssertAll notes e)).

(** The sentence of the specification on mismatches, as it is written,
    for any test over the channel: calls that are not the expected ones
    never end in silence. *)
Definition stated_never_silent (ops : list op) (asserts : list assertion)
  : Prop :=
  all_agree ops asserts = false ->
  always_ends (fun c => loud c)
    (start (drive ops (fun rs => Ret rs)) (verify asserts (Ret tt))).

(** No value waits in the channel, and what one goroutine sent is what the
    other received, in the same order. *)
Definition fifo (s : shared) : Prop :=
  buf s = []
  /\ sent_by Driver (trace s) = received_by Verifier (trace s)
  /\ sent_by Verifier (trace s) = received_by Driver (trace s).

(** Adding several items in a row, keeping what each [AddItem]
    returned. *)
Fixpoint add_items (g : GroceryList) (items : list string)
  : prog (list error) :=
  match items with
  | [] => Ret []
  | item :: rest =>
      e <- AddItem g item ;;
      es <- add_items g rest ;;
      Ret (e :: es)
  end.

(** The number of rounds in which the created note is not the expected
    one. *)
Fixpoint disagreements (ops : list op) (asserts : list assertion) : nat :=
  match ops, asserts with
  | o :: ops', a :: asserts' =>
      List.length (mismatch o a) + disagreements ops' asserts'
  | _, _ => 0
  end.

(** What [Create] and [All] come to after the reply [v]. *)
Definition Create_outcome (v : Call) : outcome error :=
  match v with
  | Some (dyn_createResp (Some resp)) => Returned (createResp_err resp)
  | Some (dyn_createResp None) => Panicked NilDereference
  | _ => Panicked (InterfaceConversion (dyn_type v) T_createResp)
  end.

Definition All_outcome (v : Call) : outcome (slice (ptr Note) * error) :=
  match v with
  | Some (dyn_allResp (Some resp)) =>
      Returned (allResp_notes resp, allResp_err resp)
  | Some (dyn_allResp None) => Panicked NilDereference
  | _ => Panicked (InterfaceConversion (dyn_type v) T_allResp)
  end.

(* ================================================================== *)
(** * Properties *)

(** ** The two presentations of the semantics agree *)

Lemma solo_move_sound {A} (p : prog A) s e p' s' :
  solo_move p s = Some (e, p', s') -> lstep p e p' /\ allows s e s'.
Proof.
  destruct p; simpl; try discriminate.
  - destruct (closed s) eqn:Hc.
    + intros H; inversion H; subst; split; constructor; assumption.
    + destruct (Nat.ltb _ _) eqn:Hl; try discriminate.
      intros H; inversion H; subst; split; constructor; try assumption.
      apply Nat.ltb_lt; assumption.
  - destruct (buf s) eqn:Hb.
    + destruct (closed s) eqn:Hc; try discriminate.
      intros H; inversion H; subst; split; constructor; assumption.
    + intros H; inversion H; subst; split; constructor; assumption.
  - destruct (closed s) eqn:Hc;
      intros H; inversion H; subst; split; constructor; assumption.
  - intros H; inversion H; subst; split; constructor.
  - intros H; inversion H; subst; split; constructor.
Qed.

Lemma solo_move_complete {A} (p : prog A) s e p' s' :
  lstep p e p' -> allows s e s' -> solo_move p s = Some (e, p', s').
Proof.
  intros Hl Ha; destruct Ha; inversion Hl; subst; simpl;
    repeat match goal with
           | H : closed _ = _ |- _ => rewrite H; clear H
           | H : buf _ = _ |- _ => rewrite H; clear H
           end; try reflexivity.
  destruct (Nat.ltb_spec (List.length (buf s)) (cap s)); [reflexivity|lia].
Qed.

Lemma sync_move_sound {A B} (p : prog A) (q : prog B) s v p' q' :
  sync_move p q s = Some (v, p', q') ->
  closed s = false /\ buf s = [] /\
  lstep p (EvSend v) p' /\ lstep q (EvRecv v true) q'.
Proof.
  destruct p; simpl; try discriminate.
  destruct q; try discriminate.
  destruct (closed s); try discriminate.
  destruct (buf s); try discriminate.
  intros H; inversion H; subst.
  repeat split; constructor.
Qed.

Lemma sync_move_complete {A B} (p : prog A) (q : prog B) s v p' q' :
  closed s = false -> buf s = [] ->
  lstep p (EvSend v) p' -> lstep q (EvRecv v true) q' ->
  sync_move p q s = Some (v, p', q').
Proof.
  intros Hc Hb Hp Hq; inversion Hp; subst; inversion Hq; subst; simpl.
  rewrite Hc, Hb; reflexivity.
Qed.

Lemma step_successors {A B} (c c' : config A B) :
  step c c' <-> In c' (successors c).
Proof.
  unfold successors; split.
  - intros H; destruct H as [c e p' s' Hn Hl Ha | c e q' s' Hn Hl Ha
                            | c v p' q' Hn Hc Hb Hp Hq
                            | c v p' q' Hn Hc Hb Hq Hp]; rewrite Hn.
    + rewrite (solo_move_complete Hl Ha); simpl; auto.
    + rewrite (solo_move_complete Hl Ha).
      apply in_or_app; right; simpl; auto.
    + rewrite (sync_move_complete _ Hc Hb Hp Hq).
      do 2 (apply in_or_app; right); simpl; auto.
    + rewrite (sync_move_complete _ Hc Hb Hq Hp).
      do 3 (apply in_or_app; right); simpl; auto.
  - destruct (crash_of c) eqn:Hn; [intros []|].
    intros H.
    repeat (apply in_app_or in H; destruct H as [H|H]).
    + destruct (solo_move (driver c) (sh c)) as [[[e p'] s']|] eqn:Hm;
        simpl in H; [|contradiction].
      destruct H as [<-|[]].
      apply solo_move_sound in Hm; destruct Hm.
      apply step_driver; assumption.
    + destruct (solo_move (verifier c) (sh c)) as [[[e q'] s']|] eqn:Hm;
        simpl in H; [|contradiction].
      destruct H as [<-|[]].
      apply solo_move_sound in Hm; destruct Hm.
      apply step_verifier; assumption.
    + destruct (sync_move (driver c) (verifier c) (sh c))
        as [[[v p'] q']|] eqn:Hm; simpl in H; [|contradiction].
      destruct H as [<-|[]].
      apply sync_move_sound in Hm; destruct Hm as (?&?&?&?).
      apply step_sync_dv; assumption.
    + destruct (sync_move (verifier c) (driver c) (sh c))
        as [[[v q'] p']|] eqn:Hm; simpl in H; [|contradiction].
      destruct H as [<-|[]].
      apply sync_move_sound in Hm; destruct Hm as (?&?&?&?).
      apply step_sync_vd; assumption.
Qed.

Lemma always_ends_stuck {A B} (P : config A B -> Prop) c :
  successors c = [] -> P c -> always_ends P c.
Proof.
  intros Hs HP; apply ae_end; [|assumption].
  intros c' Hc; apply step_successors in Hc; rewrite Hs in Hc; destruct Hc.
Qed.

Lemma always_ends_next {A B} (P : config A B -> Prop) c :
  successors c <> [] ->
  (forall c', In c' (successors c) -> always_ends P c') ->
  always_ends P c.
Proof.
  intros Hs Hall; apply ae_step.
  - destruct (successors c) as [|c1 l] eqn:E; [congruence|].
    exists c1; apply step_successors; rewrite E; left; reflexivity.
  - intros c' Hc; apply Hall, step_successors, Hc.
Qed.

Lemma always_ends_weaken {A B} (P Q : config A B -> Prop) c :
  (forall x, P x -> Q x) -> always_ends P c -> always_ends Q c.
Proof.
  intros HPQ H; induction H as [c Hs HP | c Hex Hall IH].
  - apply ae_end; auto.
  - apply ae_step; auto.
Qed.

Lemma always_ends_both {A B} (P Q : config A B -> Prop) c :
  always_ends P c -> always_ends Q c -> exists c', P c' /\ Q c'.
Proof.
  intros HP; induction HP as [c Hs HP | c Hex Hall IH]; intros HQ.
  - destruct HQ as [c _ HQ | c [c' Hc] _].
    + exists c; split; assumption.
    + destruct (Hs c' Hc).
  - destruct HQ as [c Hs _ | c _ HallQ].
    + destruct Hex as [c' Hc]. destruct (Hs c' Hc).
    + destruct Hex as [c' Hc]. exact (IH c' Hc (HallQ c' Hc)).
Qed.

Lemma check_runs_sound {A B} (ok : config A B -> bool) fuel :
  forall c, check_runs fuel ok c = true ->
            always_ends (fun x => ok x = true) c.
Proof.
  induction fuel as [|fuel IH]; intros c; cbn [check_runs];
    destruct (successors c) as [|c1 l] eqn:E; intros H.
  - apply always_ends_stuck; assumption.
  - discriminate.
  - apply always_ends_stuck; assumption.
  - apply always_ends_next; [congruence|].
    rewrite E; intros c' Hin.
    apply IH.
    rewrite forallb_forall in H; apply H, Hin.
Qed.

(* ------------------------------------------------------------------ *)
(** ** One round trip, symbolically *)

Ltac one_step :=
  apply always_ends_next;
  [ cbn; discriminate
  | cbn; intros ? [<-|[]];
    unfold add_trace, add_failure, set_buf, set_closed; cbn ].

Section Rounds.

Context {A B : Type}.
Variable P : config A B -> Prop.

(** A [Create] of the driver meets the [AssertCreate] of the verifier:
    the call goes over, a differing note is reported once, the reply
    comes back, and both go on. *)
Lemma round_create n n' e (kd : Call * bool -> prog A) (kv : prog B) fs tr :
  always_ends P
    (mkConfig (kd (FakeClient.the_createResp e, true)) kv
       (mkShared 0 [] false
          (fs ++ map ReportError (mismatch (OpCreate n) (ACreate n' e)))
          (tr ++ round_trace (OpCreate n) (ACreate n' e)))) ->
  always_ends P
    (mkConfig (Send (FakeClient.the_createCall (Some n)) (Recv kd))
       (FakeClient.AssertCreate (Some n') e ;; kv)
       (mkShared 0 [] false fs tr)).
Proof.
  intros H.
  one_step.
  unfold round_trace, mismatch in H.
  destruct (Note_eq_dec n n') as [E|E]; cbn in *.
  - one_step.
    rewrite app_nil_r in H. rewrite <- app_assoc. exact H.
  - one_step. one_step.
    rewrite <- !app_assoc. exact H.
Qed.

(** An [All] of the driver meets the [AssertAll] of the verifier. *)
Lemma round_all notes e (kd : Call * bool -> prog A) (kv : prog B) fs tr :
  always_ends P
    (mkConfig (kd (FakeClient.the_allResp notes e, true)) kv
       (mkShared 0 [] false fs
          (tr ++ round_trace OpAll (AAll notes e)))) ->
  always_ends P
    (mkConfig (Send FakeClient.the_allCall (Recv kd))
       (FakeClient.AssertAll notes e ;; kv)
       (mkShared 0 [] false fs tr)).
Proof.
  intros H.
  one_step. one_step.
  rewrite <- app_assoc. exact H.
Qed.

End Rounds.

(* ------------------------------------------------------------------ *)
(** ** Whole sequences of round trips *)

Lemma rounds {A B} (P : config A B -> Prop) ops :
  forall asserts (kd : list response -> prog A) (kv : prog B) fs tr,
    all_paired ops asserts = true ->
    always_ends P
      (mkConfig (kd (map supplied asserts)) kv
         (mkShared 0 [] false (fs ++ mismatches ops asserts)
            (tr ++ lockstep ops asserts))) ->
    always_ends P
      (mkConfig (drive ops kd) (verify asserts kv)
         (mkShared 0 [] false fs tr)).
Proof.
  induction ops as [|o ops IH]; intros [|a asserts] kd kv fs tr Hp H;
    try discriminate.
  - cbn in H. rewrite !app_nil_r in H. exact H.
  - cbn [all_paired] in Hp. apply andb_prop in Hp. destruct Hp as [Ho Hp].
    cbn [map mismatches lockstep] in H. rewrite !app_assoc in H.
    destruct o as [n|], a as [n' e|notes e]; try discriminate.
    + apply round_create with (kv := verify asserts kv).
      cbn. apply IH; assumption.
    + apply round_all with (kv := verify asserts kv).
      cbn [mismatch map] in H. rewrite app_nil_r in H.
      cbn. apply IH; assumption.
Qed.

Lemma returned_Ret {A} (p : prog A) a : returned p = Some a -> p = Ret a.
Proof. destruct p; simpl; congruence. Qed.

Lemma is_ret_tt_Ret p : is_ret_tt p = true -> p = Ret tt.
Proof. destruct p as [[]| | | | | | |]; simpl; congruence. Qed.

Lemma no_failures_nil s : no_failures s = true -> failures s = [].
Proof. unfold no_failures; destruct (failures s); congruence. Qed.

(** C1. For every sequence of calls of the driver on the double and the
    sequence of assertions written for them, in the same order, every run
    of the two goroutines ends with both returned, and the calls have
    returned, one by one, exactly what the assertions supplied: the error
    given to [AssertCreate], the notes and the error given to
    [AssertAll]. *)
Theorem responses_are_the_supplied_ones (ops : list op)
  (asserts : list assertion) :
  all_paired ops asserts = true ->
  always_ends
    (fun c => driver c = Ret (map supplied asserts) /\ verifier c = Ret tt)
    (start (drive ops (fun rs => Ret rs)) (verify asserts (Ret tt))).
Proof.
  intros Hp. unfold start, NewFakeClient.
  apply rounds; [assumption|].
  apply always_ends_stuck; [reflexivity|].
  split; reflexivity.
Qed.

Lemma responses_are_the_supplied_ones_witness :
  always_ends
    (fun c =>
       driver c = Ret [RespCreate (errorString "disk full");
                       RespAll (slice_of [Some (mkNote "pears")]) nil_error]
       /\ verifier c = Ret tt)
    (start (drive [OpCreate (mkNote "apples"); OpAll] (fun rs => Ret rs))
       (verify [ACreate (mkNote "plums") (errorString "disk full");
                AAll (slice_of [Some (mkNote "pears")]) nil_error]
          (Ret tt))).
Proof.
  apply (responses_are_the_supplied_ones
           [OpCreate (mkNote "apples"); OpAll]
           [ACreate (mkNote "plums") (errorString "disk full");
            AAll (slice_of [Some (mkNote "pears")]) nil_error]).
  reflexivity.
Defined.

(* ------------------------------------------------------------------ *)
(** ** The test of the repository *)

Lemma result_eqb_eq x y : Scenario.result_eqb x y = true -> x = y.
Proof.
  destruct x as [e1 [s1 e1']], y as [e2 [s2 e2']].
  unfold Scenario.result_eqb; cbn [fst snd].
  destruct (error_eq_dec e1 e2); [|discriminate].
  destruct (slice_eq_dec string_dec s1 s2); [|discriminate].
  destruct (error_eq_dec e1' e2'); [|discriminate].
  intros _; congruence.
Qed.

(** C2. In the scenario of [TestGroceryList] (the driver adds "apples" and
    lists the items, then calls [AssertDone]; the verifier runs
    [AssertCreate], [AssertAll] and [Close]) every run ends with [Create]
    having returned nil, [Items] having returned ["apples"] and nil, and
    nothing reported to [t]; the test function itself ends without a
    failure on every run. *)
Theorem grocery_list_scenario :
  always_ends
    (fun c =>
       driver c = Ret (nil_error, (slice_of ["apples"], nil_error))
       /\ verifier c = Ret tt
       /\ failures (sh c) = []
       /\ closed (sh c) = true)
    (start Scenario.driver TestGroceryList.goroutine)
  /\ always_ends
       (fun c =>
          driver c = Ret tt /\ verifier c = Ret tt /\ test_failed c = false)
       (start TestGroceryList.body TestGroceryList.goroutine).
Proof.
  split.
  - apply always_ends_weaken with (P := fun c => scenario_ok c = true).
    + intros c H. unfold scenario_ok in H.
      repeat (apply andb_prop in H; destruct H as [H ?]).
      destruct (returned (driver c)) as [r|] eqn:Hr; [|discriminate].
      apply result_eqb_eq in H; subst r.
      repeat split; auto using returned_Ret, is_ret_tt_Ret, no_failures_nil.
    + apply check_runs_sound with (fuel := 16). vm_compute. reflexivity.
  - apply always_ends_weaken with (P := fun c => test_ok c = true).
    + intros c H. unfold test_ok in H.
      repeat (apply andb_prop in H; destruct H as [H ?]).
      repeat split; auto using is_ret_tt_Ret.
      destruct (test_failed c); [discriminate|reflexivity].
    + apply check_runs_sound with (fuel := 16). vm_compute. reflexivity.
Qed.

(* ------------------------------------------------------------------ *)
(** ** Single assertions *)

Ltac stuck := apply always_ends_stuck; [reflexivity | cbn; auto].

(** C4. When [AssertCreate(expected, err)] meets a [Create(actual)] whose
    note differs from the expected one, every run ends with exactly one
    report on [t], made with [t.Error] (so the verifier went on), and with
    [Create] having returned [err]. *)
Theorem create_mismatch_reported_once (actual expected : Note) (err : error) :
  actual <> expected ->
  always_ends
    (fun c =>
       driver c = Ret err
       /\ verifier c = Ret tt
       /\ failures (sh c) =
            [ReportError
               (FakeClient.create_mismatch (Some expected) (Some actual))])
    (start (FakeClient.Create (Some actual))
       (FakeClient.AssertCreate (Some expected) err)).
Proof.
  intros Hne. unfold start, NewFakeClient.
  one_step.
  destruct (Note_eq_dec actual expected) as [E|_]; [contradiction|].
  cbn. one_step. one_step. stuck.
Qed.

Lemma create_mismatch_reported_once_witness :
  always_ends
    (fun c =>
       driver c = Ret (errorString "boom")
       /\ verifier c = Ret tt
       /\ failures (sh c) =
            [ReportError
               (FakeClient.create_mismatch (Some (mkNote "apples"))
                  (Some (mkNote "pears")))])
    (start (FakeClient.Create (Some (mkNote "pears")))
       (FakeClient.AssertCreate (Some (mkNote "apples"))
          (errorString "boom"))).
Proof.
  apply (create_mismatch_reported_once (actual := mkNote "pears")
           (expected := mkNote "apples") (errorString "boom")).
  discriminate.
Defined.

(** C8. With the assertion supplying the one note "apples" and a nil
    error, [Items] on the list backed by the double (a call of [All], then
    each note mapped to its [Text]) returns ["apples"] and nil on every
    run. *)
Theorem items_round_trip :
  always_ends
    (fun c =>
       driver c = Ret (slice_of ["apples"], nil_error)
       /\ verifier c = Ret tt
       /\ failures (sh c) = [])
    (start (Items TestGroceryList.list)
       (FakeClient.AssertAll (slice_of [Some (mkNote "apples")]) nil_error)).
Proof.
  unfold start, NewFakeClient.
  one_step. one_step. stuck.
Qed.

(* ------------------------------------------------------------------ *)
(** ** Local runs *)

Lemma lstep_bind {A B} (p p' : prog A) e (f : A -> prog B) :
  lstep p e p' -> lstep (bind p f) e (bind p' f).
Proof.
  intros H; destruct H; cbn; constructor.
Qed.

Lemma exec_bind {A B} (p : prog A) tr a (f : A -> prog B) tr' o :
  exec p tr (Returned a) -> exec (f a) tr' o -> exec (bind p f) (tr ++ tr') o.
Proof.
  intros H; remember (Returned a) as r eqn:Er.
  induction H as [a0| | |p e p' tr0 r Hl H IH]; intros Hf; try discriminate.
  - inversion Er; subst; exact Hf.
  - cbn [app]. eapply exec_step; [apply lstep_bind, Hl | apply IH; assumption].
Qed.

Lemma lstep_det {A} (p p1 p2 : prog A) e :
  lstep p e p1 -> lstep p e p2 -> p1 = p2.
Proof.
  intros H1 H2; destruct H1; inversion H2; subst; reflexivity.
Qed.

Lemma exec_det {A} (p : prog A) tr o :
  exec p tr o -> forall o', exec p tr o' -> o' = o.
Proof.
  induction 1 as [a| |x|p e p' tr o Hl H IH]; intros o' H'.
  - inversion H'; reflexivity.
  - inversion H'; reflexivity.
  - inversion H'; reflexivity.
  - inversion H' as [| | |q e0 q' tr0 o0 Hl' H0]; subst.
    rewrite (lstep_det Hl' Hl) in H0. apply IH, H0.
Qed.

Lemma exec_end_nil {A} (p : prog A) o :
  exec p [] o -> forall tr o', exec p tr o' -> tr = [] /\ o' = o.
Proof.
  intros H tr o' H'.
  inversion H; subst; inversion H' as [| | |q e q' tr0 o0 Hl H0]; subst;
    try (split; reflexivity); inversion Hl.
Qed.

Lemma exec_cons_inv {A} (p : prog A) e tr o :
  exec p (e :: tr) o -> exists p', lstep p e p' /\ exec p' tr o.
Proof. intros H; inversion H; subst; eauto. Qed.

Lemma lstep_send_inv {A} v (k p' : prog A) v' :
  lstep (Send v k) (EvSend v') p' -> p' = k.
Proof. intros H; inversion H; reflexivity. Qed.

Lemma lstep_recv_inv {A} (k : Call * bool -> prog A) p' v more :
  lstep (Recv k) (EvRecv v more) p' -> p' = k (v, more).
Proof. intros H; inversion H; reflexivity. Qed.

(** Peel the events of a local run off a program whose head is known. *)
Ltac peel H :=
  repeat
    (let p' := fresh "p'" in
     let Hl := fresh "Hl" in
     apply exec_cons_inv in H; destruct H as (p' & Hl & H);
     first [ apply lstep_send_inv in Hl | apply lstep_recv_inv in Hl ];
     subst p'; cbn in H).

(** C10. Whenever [All] of the injected backend returns a non-nil error,
    [Items] returns that same error with an empty slice that is not nil,
    and does nothing besides the call of [All]: the notes are not
    mapped. *)
Theorem items_passes_backend_error (api : API) (notes : slice (ptr Note))
  (e : error) (tr : list event) :
  e <> nil_error ->
  exec (All api) tr (Returned (notes, e)) ->
  exists items,
    exec (Items (mkGroceryList api)) tr (Returned (items, e))
    /\ len items = 0
    /\ is_nil_slice items = false
    /\ forall o, exec (Items (mkGroceryList api)) tr o ->
                 o = Returned (items, e).
Proof.
  intros He Hall.
  assert (H : exec (Items (mkGroceryList api)) tr
                (Returned (slice_of [], e))).
  { rewrite <- (app_nil_r tr). unfold Items; cbn [Store].
    eapply exec_bind; [exact Hall|].
    destruct e; [contradiction|]. cbn. constructor. }
  exists (slice_of []).
  split; [exact H|].
  split; [reflexivity|].
  split; [reflexivity|].
  intros o Ho. exact (exec_det H Ho).
Qed.

Lemma items_passes_backend_error_witness :
  exists items,
    exec (Items TestGroceryList.list)
      [EvSend FakeClient.the_allCall;
       EvRecv (FakeClient.the_allResp (slice_of [None]) (errorString "down"))
         true]
      (Returned (items, errorString "down"))
    /\ len items = 0
    /\ is_nil_slice items = false
    /\ forall o,
        exec (Items TestGroceryList.list)
          [EvSend FakeClient.the_allCall;
           EvRecv
             (FakeClient.the_allResp (slice_of [None]) (errorString "down"))
             true] o ->
        o = Returned (items, errorString "down").
Proof.
  apply (items_passes_backend_error FakeClient.as_API
           (notes := slice_of [None]) (e := errorString "down")).
  - discriminate.
  - eapply exec_step; [apply l_send|].
    eapply exec_step;
      [apply (l_recv _
                (FakeClient.the_allResp (slice_of [None])
                   (errorString "down")) true)|].
    cbn. apply exec_ret.
Defined.

(* ------------------------------------------------------------------ *)
(** ** A message of the wrong variant *)

Lemma ends_exactly_intro {A} (p : prog A) pre o :
  exec p pre o ->
  (forall tr o', exec p (pre ++ tr) o' -> tr = [] /\ o' = o) ->
  ends_exactly p pre o.
Proof. split; assumption. Qed.

Lemma Create_wrong_reply n v more :
  dyn_type v <> Some T_createResp ->
  ends_exactly (FakeClient.Create n)
    [EvSend (FakeClient.the_createCall n); EvRecv v more]
    (Panicked (InterfaceConversion (dyn_type v) T_createResp)).
Proof.
  intros Hv.
  assert (E : exec (FakeClient.Create n)
                [EvSend (FakeClient.the_createCall n); EvRecv v more]
                (Panicked (InterfaceConversion (dyn_type v) T_createResp))).
  { eapply exec_step; [apply l_send|].
    eapply exec_step; [apply (l_recv _ v more)|].
    destruct v as [[p|p|p|p]|]; cbn in *; try congruence; constructor. }
  apply ends_exactly_intro; [exact E|].
  intros tr o' H. cbn [app] in H. peel H.
  destruct v as [[p|p|p|p]|]; cbn in *; try congruence;
    apply (exec_end_nil (exec_panic _) H).
Qed.

Lemma All_wrong_reply v more :
  dyn_type v <> Some T_allResp ->
  ends_exactly FakeClient.All
    [EvSend FakeClient.the_allCall; EvRecv v more]
    (Panicked (InterfaceConversion (dyn_type v) T_allResp)).
Proof.
  intros Hv.
  assert (E : exec FakeClient.All
                [EvSend FakeClient.the_allCall; EvRecv v more]
                (Panicked (InterfaceConversion (dyn_type v) T_allResp))).
  { eapply exec_step; [apply l_send|].
    eapply exec_step; [apply (l_recv _ v more)|].
    destruct v as [[p|p|p|p]|]; cbn in *; try congruence; constructor. }
  apply ends_exactly_intro; [exact E|].
  intros tr o' H. cbn [app] in H. peel H.
  destruct v as [[p|p|p|p]|]; cbn in *; try congruence;
    apply (exec_end_nil (exec_panic _) H).
Qed.

Lemma AssertCreate_wrong_call n e v more :
  dyn_type v <> Some T_createCall ->
  ends_exactly (FakeClient.AssertCreate n e) [EvRecv v more]
    (Panicked (InterfaceConversion (dyn_type v) T_createCall)).
Proof.
  intros Hv.
  assert (E : exec (FakeClient.AssertCreate n e) [EvRecv v more]
                (Panicked (InterfaceConversion (dyn_type v) T_createCall))).
  { eapply exec_step; [apply (l_recv _ v more)|].
    destruct v as [[p|p|p|p]|]; cbn in *; try congruence; constructor. }
  apply ends_exactly_intro; [exact E|].
  intros tr o' H. cbn [app] in H. peel H.
  destruct v as [[p|p|p|p]|]; cbn in *; try congruence;
    apply (exec_end_nil (exec_panic _) H).
Qed.

Lemma AssertAll_wrong_call notes e v more :
  dyn_type v <> Some T_allCall ->
  ends_exactly (FakeClient.AssertAll notes e) [EvRecv v more]
    (Panicked (InterfaceConversion (dyn_type v) T_allCall)).
Proof.
  intros Hv.
  assert (E : exec (FakeClient.AssertAll notes e) [EvRecv v more]
                (Panicked (InterfaceConversion (dyn_type v) T_allCall))).
  { eapply exec_step; [apply (l_recv _ v more)|].
    destruct v as [[p|p|p|p]|]; cbn in *; try congruence; constructor. }
  apply ends_exactly_intro; [exact E|].
  intros tr o' H. cbn [app] in H. peel H.
  destruct v as [[p|p|p|p]|]; cbn in *; try congruence;
    apply (exec_end_nil (exec_panic _) H).
Qed.

(** Assertions in the wrong order: the process dies of the failed type
    assertion, nothing was reported through [t], no reply was sent. *)
Lemma Create_meets_AssertAll n notes e :
  always_ends
    (fun c =>
       crash_of c = Some (InterfaceConversion (Some T_createCall) T_allCall)
       /\ failures (sh c) = []
       /\ sent_by Verifier (trace (sh c)) = []
       /\ returned (driver c) = None)
    (start (FakeClient.Create (Some n)) (FakeClient.AssertAll notes e)).
Proof. unfold start, NewFakeClient. one_step. stuck. Qed.

Lemma All_meets_AssertCreate n e :
  always_ends
    (fun c =>
       crash_of c = Some (InterfaceConversion (Some T_allCall) T_createCall)
       /\ failures (sh c) = []
       /\ sent_by Verifier (trace (sh c)) = []
       /\ returned (driver c) = None)
    (start FakeClient.All (FakeClient.AssertCreate (Some n) e)).
Proof. unfold start, NewFakeClient. one_step. stuck. Qed.

(** C7. A received message of the wrong variant ends the receiving step at
    once with the panic of the failed type assertion, which names the type
    found and the type wanted: in [Create] and [All] for a reply of
    another variant, in [AssertCreate] and [AssertAll] for a call of
    another variant.  With assertions in the wrong order, every run ends
    with the process dead of that panic, nothing reported through [t] and
    no reply sent. *)
Theorem wrong_variant_is_fatal :
  (forall n v more,
      dyn_type v <> Some T_createResp ->
      ends_exactly (FakeClient.Create n)
        [EvSend (FakeClient.the_createCall n); EvRecv v more]
        (Panicked (InterfaceConversion (dyn_type v) T_createResp)))
  /\ (forall v more,
         dyn_type v <> Some T_allResp ->
         ends_exactly FakeClient.All
           [EvSend FakeClient.the_allCall; EvRecv v more]
           (Panicked (InterfaceConversion (dyn_type v) T_allResp)))
  /\ (forall n e v more,
         dyn_type v <> Some T_createCall ->
         ends_exactly (FakeClient.AssertCreate n e) [EvRecv v more]
           (Panicked (InterfaceConversion (dyn_type v) T_createCall)))
  /\ (forall notes e v more,
         dyn_type v <> Some T_allCall ->
         ends_exactly (FakeClient.AssertAll notes e) [EvRecv v more]
           (Panicked (InterfaceConversion (dyn_type v) T_allCall)))
  /\ (forall n notes e,
         always_ends
           (fun c =>
              crash_of c =
                Some (InterfaceConversion (Some T_createCall) T_allCall)
              /\ failures (sh c) = []
              /\ sent_by Verifier (trace (sh c)) = []
              /\ returned (driver c) = None)
           (start (FakeClient.Create (Some n))
              (FakeClient.AssertAll notes e)))
  /\ (forall n e,
         always_ends
           (fun c =>
              crash_of c =
                Some (InterfaceConversion (Some T_allCall) T_createCall)
              /\ failures (sh c) = []
              /\ sent_by Verifier (trace (sh c)) = []
              /\ returned (driver c) = None)
           (start FakeClient.All (FakeClient.AssertCreate (Some n) e))).
Proof.
  split; [intros; apply Create_wrong_reply; assumption|].
  split; [intros; apply All_wrong_reply; assumption|].
  split; [intros; apply AssertCreate_wrong_call; assumption|].
  split; [intros; apply AssertAll_wrong_call; assumption|].
  split; [intros; apply Create_meets_AssertAll|].
  intros; apply All_meets_AssertCreate.
Qed.

Lemma wrong_variant_is_fatal_witness :
  ends_exactly (FakeClient.Create (Some (mkNote "apples")))
    [EvSend (FakeClient.the_createCall (Some (mkNote "apples")));
     EvRecv (FakeClient.the_allResp nil_slice nil_error) true]
    (Panicked (InterfaceConversion (Some T_allResp) T_createResp))
  /\ ends_exactly FakeClient.All
       [EvSend FakeClient.the_allCall; EvRecv None false]
       (Panicked (InterfaceConversion None T_allResp))
  /\ ends_exactly (FakeClient.AssertCreate (Some (mkNote "apples")) nil_error)
       [EvRecv FakeClient.the_allCall true]
       (Panicked (InterfaceConversion (Some T_allCall) T_createCall))
  /\ ends_exactly (FakeClient.AssertAll nil_slice nil_error)
       [EvRecv (FakeClient.the_createCall (Some (mkNote "apples"))) true]
       (Panicked (InterfaceConversion (Some T_createCall) T_allCall)).
Proof.
  destruct wrong_variant_is_fatal as (H1 & H2 & H3 & H4 & _).
  split; [apply (H1 (Some (mkNote "apples"))
                   (FakeClient.the_allResp nil_slice nil_error) true);
          discriminate|].
  split; [apply (H2 None false); discriminate|].
  split; [apply (H3 (Some (mkNote "apples")) nil_error
                   FakeClient.the_allCall true); discriminate|].
  apply (H4 nil_slice nil_error
           (FakeClient.the_createCall (Some (mkNote "apples"))) true).
  discriminate.
Defined.

(* ------------------------------------------------------------------ *)
(** ** AssertAll *)

(** The one way to the report "No all call": a nil pointer of type
    [*allCall] on the channel, which no code of the double sends. *)
Remark AssertAll_typed_nil notes e :
  always_ends
    (fun c =>
       driver c = Ret (FakeClient.the_allResp notes e)
       /\ failures (sh c) = [ReportError [arg_string "No all call"]])
    (start (Send (Some (dyn_allCall None)) recv)
       (FakeClient.AssertAll notes e)).
Proof. unfold start, NewFakeClient. one_step. one_step. one_step. stuck. Qed.

Lemma verifier_panic_stuck {A B} (c : config A B) x :
  panicking (verifier c) = Some x ->
  successors c = [] /\ test_failed c = true.
Proof.
  intros H. unfold successors, test_failed, crash_of.
  destruct (panicking (driver c)); [split; reflexivity|].
  rewrite H; split; reflexivity.
Qed.

Lemma sent_by_app t tr tr' :
  sent_by t (tr ++ tr') = sent_by t tr ++ sent_by t tr'.
Proof.
  induction tr as [|l tr IH]; [reflexivity|].
  destruct l as [from v|who e]; cbn.
  - destruct (tid_eqb from t); cbn; rewrite IH; reflexivity.
  - destruct e; try exact IH.
    destruct (tid_eqb who t); cbn; rewrite IH; reflexivity.
Qed.

Lemma received_by_app t tr tr' :
  received_by t (tr ++ tr') = received_by t tr ++ received_by t tr'.
Proof.
  induction tr as [|l tr IH]; [reflexivity|].
  destruct l as [from v|who e]; cbn.
  - destruct (tid_eqb from t); cbn; rewrite IH; reflexivity.
  - destruct e as [| v [|] | | | | |]; try exact IH.
    destruct (tid_eqb who t); cbn; rewrite IH; reflexivity.
Qed.

(** C6. As amended: [AssertAll] waits for one value on the channel and
    asserts that it is the call of [All].  For that call it reports
    nothing and sends back the reply with the given notes and error, which
    [All] returns; for a nil pointer of the call's type it reports "No all
    call" with [t.Error] and then sends that reply.  A value of another
    variant ends the step in the panic of the type assertion: nothing is
    reported on [t] and no reply is sent. *)
Theorem AssertAll_answers_a_call_or_panics (notes : slice (ptr Note))
  (e : error) :
  (forall (b : unit) fs tr c',
      ~ step (mkConfig (Ret b) (FakeClient.AssertAll notes e)
                (mkShared 0 [] false fs tr)) c')
  /\ always_ends
       (fun c =>
          driver c = Ret (notes, e)
          /\ verifier c = Ret tt
          /\ failures (sh c) = []
          /\ trace (sh c) =
               [Sync Driver FakeClient.the_allCall;
                Sync Verifier (FakeClient.the_allResp notes e)])
       (start FakeClient.All (FakeClient.AssertAll notes e))
  /\ always_ends
       (fun c =>
          driver c = Ret (FakeClient.the_allResp notes e)
          /\ verifier c = Ret tt
          /\ failures (sh c) = [ReportError [arg_string "No all call"]])
       (start (Send (Some (dyn_allCall None)) recv)
          (FakeClient.AssertAll notes e))
  /\ (forall v (k : prog unit),
         dyn_type v <> Some T_allCall ->
         always_ends
           (fun c =>
              panicking (verifier c) =
                Some (InterfaceConversion (dyn_type v) T_allCall)
              /\ failures (sh c) = []
              /\ sent_by Verifier (trace (sh c)) = []
              /\ received_by Verifier (trace (sh c)) = [v])
           (start (Send v k) (FakeClient.AssertAll notes e))).
Proof.
  split; [|split; [|split]].
  - intros b fs tr c' H. apply step_successors in H. destruct H.
  - unfold start, NewFakeClient. one_step. one_step. stuck.
  - unfold start, NewFakeClient. one_step. one_step. one_step. stuck.
  - intros v k Hv. unfold start, NewFakeClient. one_step.
    destruct v as [[p|p|p|p]|]; cbn in *; try congruence;
      (apply always_ends_stuck;
       [ eapply verifier_panic_stuck; reflexivity
       | repeat split ]).
Qed.

Lemma AssertAll_answers_a_call_or_panics_witness :
  always_ends
    (fun c =>
       panicking (verifier c) =
         Some (InterfaceConversion (Some T_createCall) T_allCall)
       /\ failures (sh c) = []
       /\ sent_by Verifier (trace (sh c)) = []
       /\ received_by Verifier (trace (sh c)) =
            [FakeClient.the_createCall (Some (mkNote "apples"))])
    (start (Send (FakeClient.the_createCall (Some (mkNote "apples")))
              (Ret tt))
       (FakeClient.AssertAll nil_slice nil_error)).
Proof.
  apply (proj2 (proj2 (proj2
           (AssertAll_answers_a_call_or_panics nil_slice nil_error)))
           (FakeClient.the_createCall (Some (mkNote "apples"))) (Ret tt)).
  discriminate.
Defined.

(** On the call of [Create], a value of another variant, [AssertAll]
    sends no response, on any run: the sentence as written fails. *)
Lemma AssertAll_wrong_variant_counterexample :
  always_ends
    (fun c =>
       panicking (verifier c) =
         Some (InterfaceConversion (Some T_createCall) T_allCall)
       /\ failures (sh c) = []
       /\ sent_by Verifier (trace (sh c)) = []
       /\ returned (driver c) = None)
    (start (Send (FakeClient.the_createCall (Some (mkNote "apples"))) recv)
       (FakeClient.AssertAll nil_slice nil_error))
  /\ ~ stated_AssertAll_reports_and_replies
         (FakeClient.the_createCall (Some (mkNote "apples")))
         nil_slice nil_error.
Proof.
  assert (G : always_ends
                (fun c =>
                   panicking (verifier c) =
                     Some (InterfaceConversion (Some T_createCall) T_allCall)
                   /\ failures (sh c) = []
                   /\ sent_by Verifier (trace (sh c)) = []
                   /\ returned (driver c) = None)
                (start
                   (Send (FakeClient.the_createCall (Some (mkNote "apples")))
                      recv)
                   (FakeClient.AssertAll nil_slice nil_error))).
  { unfold start, NewFakeClient. one_step. stuck. }
  split; [exact G|].
  intros H. unfold stated_AssertAll_reports_and_replies in H.
  destruct (always_ends_both H G) as (c & [_ H1] & _ & _ & H2 & _).
  rewrite H2 in H1. discriminate.
Qed.

(* ------------------------------------------------------------------ *)
(** ** AssertDone *)

Lemma AssertDone_local v more tr o :
  exec FakeClient.AssertDone (EvRecv v more :: tr) o ->
  if more then tr = [EvFatal FakeClient.more_calls] /\ o = Exited
  else tr = [] /\ o = Returned tt.
Proof.
  intros H. peel H. destruct more; cbn in H.
  - inversion H as [| | |q e q' tr0 o0 Hl H0]; subst.
    inversion Hl; subst.
    destruct (exec_end_nil exec_exit H0) as [-> ->]. split; reflexivity.
  - apply (exec_end_nil (exec_ret tt) H).
Qed.

(** No report of a value mismatch is a fatal one. *)
Lemma mismatches_not_fatal ops :
  forall asserts, existsb is_fatal (mismatches ops asserts) = false.
Proof.
  induction ops as [|o ops IH]; intros [|a asserts]; try reflexivity.
  cbn [mismatches]. rewrite existsb_app, IH, orb_false_r.
  destruct o, a; try reflexivity.
  cbn. destruct (Note_eq_dec n n0); reflexivity.
Qed.

(** C5. [AssertDone] reports a failure exactly when its receive yields a
    value, that is when a call is still pending on the channel.  On a
    closed channel it returns and reports nothing; after the paired calls
    and assertions and [Close], on every run, nothing is on [t] but the
    value mismatches of the rounds, none of them fatal.  With a call of
    the driver pending, it receives the call and reports the fatal
    "Did not expect more calls". *)
Theorem AssertDone_fails_iff_call_pending :
  (forall v more tr o,
      exec FakeClient.AssertDone (EvRecv v more :: tr) o ->
      if more then tr = [EvFatal FakeClient.more_calls] /\ o = Exited
      else tr = [] /\ o = Returned tt)
  /\ (forall (b : unit) fs tr,
         always_ends
           (fun c => verifier c = Ret tt /\ failures (sh c) = fs)
           (mkConfig (Ret b) FakeClient.AssertDone
              (mkShared 0 [] true fs tr)))
  /\ (forall ops asserts,
         all_paired ops asserts = true ->
         always_ends
           (fun c =>
              driver c = Ret tt /\ verifier c = Ret tt
              /\ closed (sh c) = true
              /\ failures (sh c) = mismatches ops asserts
              /\ existsb is_fatal (failures (sh c)) = false)
           (start (drive ops (fun _ => FakeClient.AssertDone))
              (verify asserts FakeClient.Close)))
  /\ (forall o fs tr,
         always_ends
           (fun c =>
              verifier c = Exit
              /\ failures (sh c) =
                   fs ++ [ReportFatal FakeClient.more_calls]
              /\ received_by Verifier (trace (sh c)) =
                   received_by Verifier tr ++ [call_of o])
           (mkConfig (run_op o) FakeClient.AssertDone
              (mkShared 0 [] false fs tr))).
Proof.
  split; [exact AssertDone_local|].
  split; [intros b fs tr; one_step; stuck|].
  split.
  - intros ops asserts Hp. unfold start, NewFakeClient.
    apply rounds; [assumption|]. cbn [app].
    one_step. one_step. stuck.
    repeat split. apply mismatches_not_fatal.
  - intros o fs tr. destruct o as [n|]; one_step; one_step; stuck;
      repeat split; rewrite !received_by_app; cbn;
      rewrite !app_nil_r; reflexivity.
Qed.

Lemma AssertDone_fails_iff_call_pending_witness :
  ([EvFatal FakeClient.more_calls] = [EvFatal FakeClient.more_calls]
   /\ @Exited unit = Exited)
  /\ always_ends
       (fun c =>
          driver c = Ret tt /\ verifier c = Ret tt
          /\ closed (sh c) = true
          /\ failures (sh c) = []
          /\ existsb is_fatal (failures (sh c)) = false)
       (start (drive [OpAll] (fun _ => FakeClient.AssertDone))
          (verify [AAll nil_slice nil_error] FakeClient.Close)).
Proof.
  destruct AssertDone_fails_iff_call_pending as (H1 & _ & H3 & _).
  split.
  - apply (H1 FakeClient.the_allCall true
             [EvFatal FakeClient.more_calls] Exited).
    eapply exec_step; [apply (l_recv _ FakeClient.the_allCall true)|].
    eapply exec_step; [apply l_fatal|]. apply exec_exit.
  - apply (H3 [OpAll] [AAll nil_slice nil_error]). reflexivity.
Defined.

(* ------------------------------------------------------------------ *)
(** ** The rendezvous *)

(** A goroutine at its send on the open channel of capacity 0 gets past
    the send only together with a receive of the other goroutine, which
    takes the value sent. *)
Lemma send_is_a_handoff {A B} (c c' : config A B) v k :
  driver c = Send v k ->
  cap (sh c) = 0 -> closed (sh c) = false ->
  step c c' ->
  driver c' = Send v k
  \/ exists kv, verifier c = Recv kv
                /\ driver c' = k /\ verifier c' = kv (v, true).
Proof.
  intros Hd Hcap Hopen Hs.
  destruct Hs as [c e p' s' Hn Hl Ha | c e q' s' Hn Hl Ha
                 | c v0 p' q' Hn Hc Hb Hp Hq
                 | c v0 p' q' Hn Hc Hb Hq Hp]; cbn.
  - rewrite Hd in Hl. inversion Hl; subst; inversion Ha; subst.
    + lia.
    + congruence.
  - left; exact Hd.
  - right. rewrite Hd in Hp. inversion Hp; subst.
    inversion Hq; subst. eauto.
  - rewrite Hd in Hp. inversion Hp.
Qed.

(** A goroutine at its receive on the open, empty channel gets past the
    receive only with a value the other goroutine sends at that moment. *)
Lemma receive_is_a_handoff {A B} (c c' : config A B) k :
  driver c = Recv k ->
  buf (sh c) = [] -> closed (sh c) = false ->
  step c c' ->
  driver c' = Recv k
  \/ exists v kv, verifier c = Send v kv
                  /\ driver c' = k (v, true) /\ verifier c' = kv.
Proof.
  intros Hd Hbuf Hopen Hs.
  destruct Hs as [c e p' s' Hn Hl Ha | c e q' s' Hn Hl Ha
                 | c v0 p' q' Hn Hc Hb Hp Hq
                 | c v0 p' q' Hn Hc Hb Hq Hp]; cbn.
  - rewrite Hd in Hl. inversion Hl; subst; inversion Ha; subst; congruence.
  - left; exact Hd.
  - rewrite Hd in Hp. inversion Hp.
  - right. rewrite Hd in Hp. inversion Hp; subst.
    inversion Hq; subst. eauto.
Qed.

Lemma lockstep_messages ops :
  forall asserts,
    all_paired ops asserts = true ->
    sent_by Driver (lockstep ops asserts) = map call_of ops
    /\ received_by Verifier (lockstep ops asserts) = map call_of ops
    /\ sent_by Verifier (lockstep ops asserts) = map reply_of asserts
    /\ received_by Driver (lockstep ops asserts) = map reply_of asserts.
Proof.
  induction ops as [|o ops IH]; intros [|a asserts] Hp; try discriminate.
  - repeat split.
  - cbn [all_paired] in Hp. apply andb_prop in Hp. destruct Hp as [Ho Hp].
    destruct (IH asserts Hp) as (I1 & I2 & I3 & I4).
    cbn [lockstep map]. rewrite !sent_by_app, !received_by_app, I1, I2, I3, I4.
    destruct o as [n|], a as [n' e|notes e]; try discriminate;
      unfold round_trace, mismatch;
      try destruct (Note_eq_dec n n'); repeat split.
Qed.

Lemma replies_match ops :
  forall asserts,
    all_paired ops asserts = true ->
    Forall2 (fun o a => dyn_type (reply_of a) = reply_type (call_of o))
      ops asserts.
Proof.
  induction ops as [|o ops IH]; intros [|a asserts] Hp; try discriminate.
  - constructor.
  - cbn [all_paired] in Hp. apply andb_prop in Hp. destruct Hp as [Ho Hp].
    constructor; [|apply IH, Hp].
    destruct o, a; try discriminate; reflexivity.
Qed.

(** C3. The protocol runs in lockstep.  A method of the double at its
    send gets past it only when the verifier receives that very call, and
    at its receive only when the verifier sends.  For paired calls and
    assertions every run ends with the history made of the rounds in
    order, each one the call going over, then the one reply of the
    verifier, of the variant that answers the call; nothing is ever
    buffered. *)
Theorem lockstep_round_trips :
  (forall A B (c c' : config A B) v k,
      driver c = Send v k ->
      cap (sh c) = 0 -> closed (sh c) = false ->
      step c c' ->
      driver c' = Send v k
      \/ exists kv, verifier c = Recv kv
                    /\ driver c' = k /\ verifier c' = kv (v, true))
  /\ (forall A B (c c' : config A B) k,
         driver c = Recv k ->
         buf (sh c) = [] -> closed (sh c) = false ->
         step c c' ->
         driver c' = Recv k
         \/ exists v kv, verifier c = Send v kv
                         /\ driver c' = k (v, true) /\ verifier c' = kv)
  /\ (forall ops asserts,
         all_paired ops asserts = true ->
         always_ends
           (fun c =>
              driver c = Ret (map supplied asserts)
              /\ verifier c = Ret tt
              /\ buf (sh c) = []
              /\ trace (sh c) = lockstep ops asserts
              /\ sent_by Driver (trace (sh c)) = map call_of ops
              /\ received_by Verifier (trace (sh c)) = map call_of ops
              /\ sent_by Verifier (trace (sh c)) = map reply_of asserts
              /\ received_by Driver (trace (sh c)) = map reply_of asserts)
           (start (drive ops (fun rs => Ret rs)) (verify asserts (Ret tt)))
         /\ Forall2
              (fun o a => dyn_type (reply_of a) = reply_type (call_of o))
              ops asserts).
Proof.
  split; [intros A B c c' v k; apply send_is_a_handoff|].
  split; [intros A B c c' k; apply receive_is_a_handoff|].
  intros ops asserts Hp. split; [|apply replies_match, Hp].
  unfold start, NewFakeClient.
  apply rounds; [assumption|].
  apply always_ends_stuck; [reflexivity|]. cbn.
  destruct (lockstep_messages ops asserts Hp) as (I1 & I2 & I3 & I4).
  repeat split; assumption.
Qed.

Lemma lockstep_round_trips_witness :
  (driver
     (mkConfig (Ret [] : prog (list response)) (Ret tt : prog unit)
        (add_trace NewFakeClient (Sync Driver FakeClient.the_allCall)))
   = Send FakeClient.the_allCall (Ret [] : prog (list response))
   \/ exists kv,
       verifier
         (start (Send FakeClient.the_allCall (Ret [] : prog (list response)))
            (Recv (fun _ => Ret tt)))
       = Recv kv
       /\ (Ret [] : prog (list response)) = Ret []
       /\ Ret tt = kv (FakeClient.the_allCall, true))
  /\ always_ends
       (fun c =>
          driver c = Ret [RespAll nil_slice nil_error]
          /\ verifier c = Ret tt
          /\ buf (sh c) = []
          /\ trace (sh c) = lockstep [OpAll] [AAll nil_slice nil_error]
          /\ sent_by Driver (trace (sh c)) = [FakeClient.the_allCall]
          /\ received_by Verifier (trace (sh c)) = [FakeClient.the_allCall]
          /\ sent_by Verifier (trace (sh c)) =
               [FakeClient.the_allResp nil_slice nil_error]
          /\ received_by Driver (trace (sh c)) =
               [FakeClient.the_allResp nil_slice nil_error])
       (start (drive [OpAll] (fun rs => Ret rs))
          (verify [AAll nil_slice nil_error] (Ret tt))).
Proof.
  destruct lockstep_round_trips as (H1 & _ & H3).
  split.
  - apply (H1 (list response) unit
             (start (Send FakeClient.the_allCall (Ret []))
                (Recv (fun _ => Ret tt)))
             (mkConfig (Ret []) (Ret tt)
                (add_trace NewFakeClient (Sync Driver FakeClient.the_allCall)))
             FakeClient.the_allCall (Ret [])).
    + reflexivity.
    + reflexivity.
    + reflexivity.
    + apply step_successors. left. reflexivity.
  - apply (H3 [OpAll] [AAll nil_slice nil_error]). reflexivity.
Defined.

(* ------------------------------------------------------------------ *)
(** ** Pairing of sends and receives *)

Lemma fifo_step {A B} (c c' : config A B) :
  cap (sh c) = 0 -> fifo (sh c) -> step c c' ->
  cap (sh c') = 0 /\ fifo (sh c').
Proof.
  intros Hcap (Hb & H1 & H2) Hs. unfold fifo.
  destruct Hs as [c e p' s' Hn Hl Ha | c e q' s' Hn Hl Ha
                 | c v0 p' q' Hn Hc Hbuf Hp Hq
                 | c v0 p' q' Hn Hc Hbuf Hq Hp]; cbn;
    rewrite ?sent_by_app, ?received_by_app.
  - destruct Ha; cbn; try lia; try congruence;
      rewrite ?app_nil_r; auto.
  - destruct Ha; cbn; try lia; try congruence;
      rewrite ?app_nil_r; auto.
  - cbn. rewrite ?app_nil_r, H1, H2. auto.
  - cbn. rewrite ?app_nil_r, H1, H2. auto.
Qed.

Lemma fifo_steps {A B} (c c' : config A B) :
  steps c c' -> cap (sh c) = 0 -> fifo (sh c) ->
  cap (sh c') = 0 /\ fifo (sh c').
Proof.
  induction 1 as [c|c c1 c2 H IH Hs]; intros Hcap Hf; [auto|].
  destruct (IH Hcap Hf) as [Hcap1 Hf1].
  exact (fifo_step Hcap1 Hf1 Hs).
Qed.

(** *** The exact end of any run of calls against assertions *)

Lemma closing_runs ops :
  forall asserts fs tr,
    always_ends (closing_end fs tr ops asserts)
      (mkConfig (drive ops (fun _ => FakeClient.AssertDone))
         (verify asserts FakeClient.Close)
         (mkShared 0 [] false fs tr)).
Proof.
  induction ops as [|o ops IH]; intros [|a asserts] fs tr.
  - one_step. one_step. apply always_ends_stuck; [reflexivity|].
    cbn. rewrite <- app_assoc. repeat split.
  - destruct a; (apply always_ends_stuck; [reflexivity|]);
      cbn; repeat split.
  - destruct o; one_step; one_step;
      (apply always_ends_stuck; [reflexivity|]);
      cbn; rewrite <- app_assoc; repeat split.
  - destruct o as [n|], a as [n' e|notes e]; cbn [closing_end paired].
    + apply round_create with (kv := verify asserts FakeClient.Close). cbn.
      apply (IH asserts).
    + one_step. apply always_ends_stuck; [reflexivity|].
      cbn. split; [eexists; reflexivity|]. split; reflexivity.
    + one_step. apply always_ends_stuck; [reflexivity|].
      cbn. split; [eexists; reflexivity|]. split; reflexivity.
    + cbn [mismatch map]. rewrite app_nil_r.
      apply round_all with (kv := verify asserts FakeClient.Close). cbn.
      apply (IH asserts).
Qed.

Lemma plain_runs {A} ops :
  forall asserts (g : list response -> A) fs tr,
    always_ends (plain_end g fs tr ops asserts)
      (mkConfig (drive ops (fun rs => Ret (g rs))) (verify asserts (Ret tt))
         (mkShared 0 [] false fs tr)).
Proof.
  induction ops as [|o ops IH]; intros [|a asserts] g fs tr.
  - apply always_ends_stuck; [reflexivity|]. cbn. repeat split.
  - destruct a; (apply always_ends_stuck; [reflexivity|]);
      cbn; repeat split.
  - destruct o; (apply always_ends_stuck; [reflexivity|]);
      cbn; repeat split.
  - destruct o as [n|], a as [n' e|notes e]; cbn [plain_end paired].
    + apply round_create with (kv := verify asserts (Ret tt)). cbn.
      apply (IH asserts (fun rs => g (RespCreate e :: rs))).
    + one_step. apply always_ends_stuck; [reflexivity|].
      cbn. split; [eexists; reflexivity|]. split; reflexivity.
    + one_step. apply always_ends_stuck; [reflexivity|].
      cbn. split; [eexists; reflexivity|]. split; reflexivity.
    + cbn [mismatch map]. rewrite app_nil_r.
      apply round_all with (kv := verify asserts (Ret tt)). cbn.
      apply (IH asserts (fun rs => g (RespAll notes e :: rs))).
Qed.

(** *** The history pairs the calls with the assertions *)

Lemma round_trace_messages o a :
  sent_by Driver (round_trace o a) = [call_of o]
  /\ received_by Verifier (round_trace o a) = [call_of o]
  /\ sent_by Verifier (round_trace o a) = [reply_of a]
  /\ received_by Driver (round_trace o a) = [reply_of a].
Proof.
  destruct o as [n|], a as [n' e|notes e]; unfold round_trace, mismatch;
    try destruct (Note_eq_dec n n'); repeat split.
Qed.

Lemma in_order_from_quiet tr0 extra ops asserts :
  sent_by Driver extra = [] -> received_by Verifier extra = [] ->
  sent_by Verifier extra = [] -> received_by Driver extra = [] ->
  in_order_from tr0 ops asserts (tr0 ++ extra).
Proof.
  intros H1 H2 H3 H4. exists 0, 0.
  rewrite !sent_by_app, !received_by_app, H1, H2, H3, H4.
  cbn. rewrite !app_nil_r. repeat split.
Qed.

Lemma in_order_from_call tr0 o ops asserts :
  in_order_from tr0 (o :: ops) asserts (tr0 ++ [Sync Driver (call_of o)]).
Proof.
  exists 1, 0. rewrite !sent_by_app, !received_by_app.
  cbn. rewrite !app_nil_r. repeat split.
Qed.

Lemma in_order_from_round tr0 o a ops asserts tr :
  in_order_from (tr0 ++ round_trace o a) ops asserts tr ->
  in_order_from tr0 (o :: ops) (a :: asserts) tr.
Proof.
  intros (k & j & H1 & H2 & H3 & H4).
  destruct (round_trace_messages o a) as (R1 & R2 & R3 & R4).
  rewrite sent_by_app, R1, <- app_assoc in H1.
  rewrite received_by_app, R2, <- app_assoc in H2.
  rewrite sent_by_app, R3, <- app_assoc in H3.
  rewrite received_by_app, R4, <- app_assoc in H4.
  exists (S k), (S j). repeat split; assumption.
Qed.

Lemma closing_end_in_order ops :
  forall asserts fs tr c,
    closing_end fs tr ops asserts c ->
    in_order_from tr ops asserts (trace (sh c)).
Proof.
  induction ops as [|o ops IH]; intros [|a asserts] fs tr c; cbn [closing_end].
  - intros (_ & _ & _ & _ & ->). apply in_order_from_quiet; reflexivity.
  - intros (_ & _ & _ & _ & ->). rewrite <- (app_nil_r tr) at 2.
    apply in_order_from_quiet; reflexivity.
  - intros (_ & _ & ->). apply in_order_from_quiet; reflexivity.
  - destruct (paired o a).
    + intros H. apply in_order_from_round. exact (IH _ _ _ _ H).
    + intros (_ & _ & ->). apply in_order_from_call.
Qed.

Lemma plain_end_in_order {A} ops :
  forall asserts (g : list response -> A) fs tr c,
    plain_end g fs tr ops asserts c ->
    in_order_from tr ops asserts (trace (sh c)).
Proof.
  induction ops as [|o ops IH]; intros [|a asserts] g fs tr c;
    cbn [plain_end].
  - intros (_ & _ & _ & ->). rewrite <- (app_nil_r tr) at 2.
    apply in_order_from_quiet; reflexivity.
  - intros (_ & _ & _ & ->). rewrite <- (app_nil_r tr) at 2.
    apply in_order_from_quiet; reflexivity.
  - intros (_ & _ & _ & ->). rewrite <- (app_nil_r tr) at 2.
    apply in_order_from_quiet; reflexivity.
  - destruct (paired o a).
    + intros H. apply in_order_from_round. exact (IH _ _ _ _ _ H).
    + intros (_ & _ & ->). apply in_order_from_call.
Qed.

Lemma in_order_from_start ops asserts tr :
  in_order_from [] ops asserts tr -> in_order ops asserts tr.
Proof. intros (k & j & H); exists k, j; exact H. Qed.

(** *** Agreement and silence *)

Lemma agrees_paired o a :
  agrees o a = true -> paired o a = true /\ mismatch o a = [].
Proof.
  destruct o as [n|], a as [n' e|notes e]; cbn; try discriminate;
    try (split; reflexivity).
  destruct (Note_eq_dec n n'); [split; reflexivity|discriminate].
Qed.

Lemma paired_disagree o a :
  paired o a = true -> agrees o a = false -> mismatch o a <> [].
Proof.
  destruct o as [n|], a as [n' e|notes e]; cbn; try discriminate.
  destruct (Note_eq_dec n n'); discriminate.
Qed.

Lemma paired_quiet_agrees o a :
  paired o a = true -> mismatch o a = [] -> agrees o a = true.
Proof.
  intros Hp Hm. destruct (agrees o a) eqn:E; [reflexivity|].
  destruct (paired_disagree o a Hp E Hm).
Qed.

Lemma reports_after_round fs o a :
  paired o a = true ->
  fs <> [] \/ agrees o a = false ->
  fs ++ map ReportError (mismatch o a) <> [].
Proof.
  intros Hp [H|H] E; apply app_eq_nil in E; destruct E as [E1 E2].
  - contradiction.
  - apply map_eq_nil in E2. exact (paired_disagree o a Hp H E2).
Qed.

Lemma returned_beside_blocked {A B} (c : config A B) x :
  driver c = Ret x -> blocked (verifier c) = true -> crash_of c = None.
Proof.
  intros Hd Hv. unfold crash_of. rewrite Hd. cbn.
  destruct (verifier c); try discriminate; reflexivity.
Qed.

Lemma closing_end_pass ops :
  forall asserts fs tr c,
    all_agree ops asserts = true ->
    closing_end fs tr ops asserts c ->
    driver c = Ret tt /\ verifier c = Ret tt
    /\ closed (sh c) = true /\ failures (sh c) = fs.
Proof.
  induction ops as [|o ops IH]; intros [|a asserts] fs tr c Ha;
    try discriminate; cbn [closing_end].
  - intros (H1 & H2 & H3 & H4 & _). repeat split; assumption.
  - cbn [all_agree] in Ha. apply andb_prop in Ha. destruct Ha as [Ho Ha].
    destruct (agrees_paired o a Ho) as [Hp Hm]. rewrite Hp, Hm.
    cbn [map]. rewrite app_nil_r. apply IH, Ha.
Qed.

Lemma closing_end_loud ops :
  forall asserts fs tr c,
    closing_end fs tr ops asserts c ->
    fs <> [] \/ all_agree ops asserts = false ->
    loud c.
Proof.
  induction ops as [|o ops IH]; intros [|a asserts] fs tr c;
    cbn [closing_end].
  - intros (_ & _ & _ & H & _) [Hf|Hf]; [|discriminate].
    left. rewrite H. exact Hf.
  - intros (H & _) _. right; right; right. exact H.
  - intros (H & _) _. right; right; left. exact H.
  - destruct (paired o a) eqn:Hp.
    + intros H Hf. apply (IH _ _ _ _ H).
      cbn [all_agree] in Hf.
      destruct (agrees o a) eqn:Ho.
      * destruct Hf as [Hf|Hf]; [|right; exact Hf].
        left. apply reports_after_round; auto.
      * left. apply reports_after_round; auto.
    + intros ([want H] & _) _. right; left. eauto.
Qed.

Lemma plain_end_pass {A} ops :
  forall asserts (g : list response -> A) fs tr c,
    all_agree ops asserts = true ->
    plain_end g fs tr ops asserts c ->
    driver c = Ret (g (map supplied asserts)) /\ verifier c = Ret tt
    /\ failures (sh c) = fs.
Proof.
  induction ops as [|o ops IH]; intros [|a asserts] g fs tr c Ha;
    try discriminate; cbn [plain_end].
  - intros (H1 & H2 & H3 & _). repeat split; assumption.
  - cbn [all_agree] in Ha. apply andb_prop in Ha. destruct Ha as [Ho Ha].
    destruct (agrees_paired o a Ho) as [Hp Hm]. rewrite Hp, Hm.
    cbn [map]. rewrite app_nil_r.
    intros H. exact (IH asserts (fun rs => g (supplied a :: rs)) _ _ _ Ha H).
Qed.

Lemma plain_end_loud {A} ops :
  forall asserts (g : list response -> A) fs tr c,
    plain_end g fs tr ops asserts c ->
    fs <> [] \/ all_agree ops asserts = false ->
    loud c
    \/ (driver c = Ret (g (map supplied (firstn (List.length ops) asserts)))
        /\ blocked (verifier c) = true
        /\ failures (sh c) = []
        /\ fs = []
        /\ List.length ops < List.length asserts
        /\ all_agree ops (firstn (List.length ops) asserts) = true).
Proof.
  induction ops as [|o ops IH]; intros [|a asserts] g fs tr c;
    cbn [plain_end].
  - intros (_ & _ & H & _) [Hf|Hf]; [|discriminate].
    left; left. rewrite H. exact Hf.
  - intros (H1 & H2 & H3 & _) _. destruct fs as [|r fs].
    + right. cbn. repeat split; auto. lia.
    + left; left. rewrite H3. discriminate.
  - intros (H & _) _. left. right; right; right. exact H.
  - destruct (paired o a) eqn:Hp.
    + intros H Hf.
      assert (Hf' : fs ++ map ReportError (mismatch o a) <> []
                    \/ all_agree ops asserts = false).
      { cbn [all_agree] in Hf. destruct (agrees o a) eqn:Ho.
        - destruct Hf as [Hf|Hf]; [|right; exact Hf].
          left. apply reports_after_round; auto.
        - left. apply reports_after_round; auto. }
      destruct (IH asserts (fun rs => g (supplied a :: rs)) _ _ _ H Hf')
        as [L|(D & V & F & E & Hl & Hag)]; [left; exact L|].
      right. apply app_eq_nil in E. destruct E as [E1 E2].
      apply map_eq_nil in E2.
      cbn [List.length firstn map all_agree].
      rewrite (paired_quiet_agrees o a Hp E2), Hag.
      repeat split; auto. lia.
    + intros ([want H] & _) _. left. right; left. eauto.
Qed.

Lemma silent_not_loud {A B} (c : config A B) x :
  driver c = Ret x -> failures (sh c) = [] -> crash_of c = None ->
  ~ loud c.
Proof.
  intros Hd Hf Hc [H|[(got & want & H)|[H|H]]].
  - contradiction.
  - congruence.
  - congruence.
  - rewrite Hd in H. discriminate.
Qed.

(** C9. As amended: the channel pairs sends and receives in order.  From a
    fresh client, whatever the two goroutines run, nothing is ever
    buffered and the values one of them has sent are the values the other
    has received, in the same order; for calls against assertions in any
    order, the verifier has received the first calls of the driver, and
    the driver the first replies of the verifier, each in its order.  In a
    test whose driver ends with [AssertDone] and whose verifier ends with
    [Close], every run ends in silence only when the calls are the
    expected ones, call by call; otherwise something is on [t], or the
    process died of a panic, or the test waits for ever.  Without
    [AssertDone] and [Close] it is the same, but for an assertion that no
    call meets: then only the verifier waits, and the test ends in
    silence. *)
Theorem rendezvous_accounts_for_calls :
  (forall A B (d : prog A) (v : prog B) c,
      steps (start d v) c -> fifo (sh c))
  /\ (forall ops asserts,
         always_ends
           (fun c =>
              in_order ops asserts (trace (sh c))
              /\ if all_agree ops asserts
                 then driver c = Ret tt /\ verifier c = Ret tt
                      /\ closed (sh c) = true /\ failures (sh c) = []
                 else loud c)
           (start (drive ops (fun _ => FakeClient.AssertDone))
              (verify asserts FakeClient.Close)))
  /\ (forall ops asserts,
         always_ends
           (fun c =>
              in_order ops asserts (trace (sh c))
              /\ if all_agree ops asserts
                 then driver c = Ret (map supplied asserts)
                      /\ verifier c = Ret tt /\ failures (sh c) = []
                 else loud c \/ unmet_in_silence ops asserts c)
           (start (drive ops (fun rs => Ret rs)) (verify asserts (Ret tt)))).
Proof.
  split; [|split].
  - intros A B d v c H.
    apply (fifo_steps H); [reflexivity|].
    repeat split.
  - intros ops asserts.
    apply always_ends_weaken with (P := closing_end [] [] ops asserts);
      [|apply closing_runs].
    intros c H. split.
    + apply in_order_from_start. exact (closing_end_in_order _ _ _ _ _ H).
    + destruct (all_agree ops asserts) eqn:Ha.
      * exact (closing_end_pass _ _ _ _ _ Ha H).
      * apply (@closing_end_loud _ _ _ _ _ H). right; exact Ha.
  - intros ops asserts.
    apply always_ends_weaken
      with (P := plain_end (fun rs => rs) [] [] ops asserts);
      [|apply (plain_runs ops asserts (fun rs => rs))].
    intros c H. split.
    + apply in_order_from_start. exact (plain_end_in_order _ _ _ _ _ _ H).
    + destruct (all_agree ops asserts) eqn:Ha.
      * exact (plain_end_pass _ _ _ _ _ _ Ha H).
      * destruct (@plain_end_loud _ _ _ _ _ _ _ H (or_intror Ha))
          as [L|(D & V & F & _ & Hl & Hag)]; [left; exact L|].
        right. unfold unmet_in_silence. repeat split; auto.
        exact (@returned_beside_blocked _ _ c _ D V).
Qed.

Lemma rendezvous_accounts_for_calls_witness :
  fifo
    (sh (mkConfig (Recv (fun r => Ret (fst r))) (Ret tt : prog unit)
           (add_trace NewFakeClient (Sync Driver FakeClient.the_allCall)))).
Proof.
  apply (proj1 rendezvous_accounts_for_calls _ _
           (Send FakeClient.the_allCall (Recv (fun r => Ret (fst r))))
           (Recv (fun _ => Ret tt))).
  eapply steps_more; [apply steps_refl|].
  apply step_successors. left. reflexivity.
Defined.

(** An assertion that no call meets, in a test without [AssertDone]: on
    every run the driver returns, nothing is on [t], no goroutine has
    panicked and only the verifier waits; the sentence as written
    fails. *)
Lemma unmet_assertion_counterexample :
  always_ends
    (unmet_in_silence [OpCreate (mkNote "apples")]
       [ACreate (mkNote "apples") nil_error; AAll nil_slice nil_error])
    (start (drive [OpCreate (mkNote "apples")] (fun rs => Ret rs))
       (verify
          [ACreate (mkNote "apples") nil_error; AAll nil_slice nil_error]
          (Ret tt)))
  /\ ~ stated_never_silent [OpCreate (mkNote "apples")]
         [ACreate (mkNote "apples") nil_error; AAll nil_slice nil_error].
Proof.
  assert (G : always_ends
                (unmet_in_silence [OpCreate (mkNote "apples")]
                   [ACreate (mkNote "apples") nil_error;
                    AAll nil_slice nil_error])
                (start (drive [OpCreate (mkNote "apples")] (fun rs => Ret rs))
                   (verify
                      [ACreate (mkNote "apples") nil_error;
                       AAll nil_slice nil_error]
                      (Ret tt)))).
  { apply always_ends_weaken
      with (P := plain_end (fun rs => rs) [] []
                   [OpCreate (mkNote "apples")]
                   [ACreate (mkNote "apples") nil_error;
                    AAll nil_slice nil_error]);
      [|apply (plain_runs [OpCreate (mkNote "apples")]
                 [ACreate (mkNote "apples") nil_error;
                  AAll nil_slice nil_error] (fun rs => rs))].
    intros c H.
    destruct (@plain_end_loud _ _ _ _ _ _ _ H (or_intror eq_refl))
      as [L|(D & V & F & _ & Hl & Hag)].
    - exfalso. cbn in H. destruct H as (D & V & F & _).
      exact (@silent_not_loud _ _ c _ D F (@returned_beside_blocked _ _ c _ D V) L).
    - unfold unmet_in_silence. repeat split; auto.
      exact (@returned_beside_blocked _ _ c _ D V). }
  split; [exact G|].
  intros H. specialize (H eq_refl).
  destruct (always_ends_both H G) as (c & L & D & V & F & C & _).
  exact (@silent_not_loud _ _ c _ D F C L).
Qed.

(* ------------------------------------------------------------------ *)
(** ** Remarks on the edges of the double *)

(** A nil note on either side ends the verifier in a nil dereference:
    [AssertCreate] compares the notes pointed to. *)
Remark nil_note_panics n e :
  always_ends
    (fun c => panicking (verifier c) = Some NilDereference)
    (start (FakeClient.Create None) (FakeClient.AssertCreate (Some n) e))
  /\ always_ends
       (fun c => panicking (verifier c) = Some NilDereference)
       (start (FakeClient.Create (Some n)) (FakeClient.AssertCreate None e)).
Proof.
  split; unfold start, NewFakeClient; one_step; stuck.
Qed.

(** The capacity 0 of [make(chan Call)] matters: over a channel with room
    for one value, [Create] can take its own call back for the reply. *)
Remark buffered_channel_loses_the_pairing n e :
  exists c,
    steps
      (mkConfig (FakeClient.Create (Some n))
         (FakeClient.AssertCreate (Some n) e)
         (mkShared 1 [] false [] []))
      c
    /\ crash_of c = Some (InterfaceConversion (Some T_createCall) T_createResp).
Proof.
  eexists; split.
  - eapply steps_more; [eapply steps_more; [apply steps_refl|]|].
    + apply step_successors. cbn. left. reflexivity.
    + apply step_successors. cbn. left. reflexivity.
  - reflexivity.
Qed.

(* ================================================================== *)
(** * Further properties of the code *)

(** ** Items, for any backend *)

Lemma texts_of_notes ns : texts (map Some ns) = Ret (map Text ns).
Proof.
  induction ns as [|n ns IH]; [reflexivity|].
  cbn. rewrite IH. reflexivity.
Qed.

Lemma texts_nil_pointer notes :
  In None notes -> texts notes = Panic NilDereference.
Proof.
  induction notes as [|p notes IH]; intros H; [destruct H|].
  destruct p as [n|]; [|reflexivity].
  destruct H as [H|H]; [discriminate|].
  cbn. rewrite (IH H). reflexivity.
Qed.

(** When [All] of the backend returns notes, none of them a nil pointer,
    and a nil error, [Items] returns their texts in the same order, as
    many as there were notes, in a slice that is not nil (also for the nil
    slice of notes), with a nil error, and does nothing besides the call
    of [All]. *)
Theorem Items_maps_texts (api : API) (notes : slice (ptr Note))
  (ns : list Note) (tr : list event) :
  elems_of notes = map Some ns ->
  exec (All api) tr (Returned (notes, nil_error)) ->
  exists items,
    exec (Items (mkGroceryList api)) tr (Returned (items, nil_error))
    /\ elems_of items = map Text ns
    /\ len items = len notes
    /\ is_nil_slice items = false.
Proof.
  intros Hn Hall. exists (slice_of (map Text ns)).
  split; [|split; [reflexivity|split; [|reflexivity]]].
  - rewrite <- (app_nil_r tr). unfold Items; cbn [Store].
    eapply exec_bind; [exact Hall|].
    cbn. rewrite Hn, texts_of_notes. cbn. constructor.
  - unfold len. rewrite Hn. cbn. rewrite !length_map. reflexivity.
Qed.

Lemma Items_maps_texts_witness :
  exists items,
    exec (Items TestGroceryList.list)
      [EvSend FakeClient.the_allCall;
       EvRecv
         (FakeClient.the_allResp
            (slice_of [Some (mkNote "apples"); Some (mkNote "pears")])
            nil_error) true]
      (Returned (items, nil_error))
    /\ elems_of items = map Text [mkNote "apples"; mkNote "pears"]
    /\ len items =
         len (slice_of [Some (mkNote "apples"); Some (mkNote "pears")])
    /\ is_nil_slice items = false.
Proof.
  apply (Items_maps_texts FakeClient.as_API
           (notes := slice_of [Some (mkNote "apples"); Some (mkNote "pears")])
           [mkNote "apples"; mkNote "pears"]).
  - reflexivity.
  - eapply exec_step; [apply l_send|].
    eapply exec_step;
      [apply (l_recv _
                (FakeClient.the_allResp
                   (slice_of [Some (mkNote "apples"); Some (mkNote "pears")])
                   nil_error) true)|].
    cbn. apply exec_ret.
Defined.

(** When [All] of the backend returns a nil error and notes with a nil
    pointer among them, [Items] panics on the nil dereference in its
    loop. *)
Theorem Items_nil_note_panics (api : API) (notes : slice (ptr Note))
  (tr : list event) :
  In None (elems_of notes) ->
  exec (All api) tr (Returned (notes, nil_error)) ->
  exec (Items (mkGroceryList api)) tr (Panicked NilDereference).
Proof.
  intros Hn Hall.
  rewrite <- (app_nil_r tr). unfold Items; cbn [Store].
  eapply exec_bind; [exact Hall|].
  cbn. rewrite (texts_nil_pointer _ Hn). cbn. constructor.
Qed.

Lemma Items_nil_note_panics_witness :
  exec (Items TestGroceryList.list)
    [EvSend FakeClient.the_allCall;
     EvRecv
       (FakeClient.the_allResp (slice_of [Some (mkNote "apples"); None])
          nil_error) true]
    (Panicked NilDereference).
Proof.
  apply (Items_nil_note_panics FakeClient.as_API
           (notes := slice_of [Some (mkNote "apples"); None])).
  - right; left; reflexivity.
  - eapply exec_step; [apply l_send|].
    eapply exec_step;
      [apply (l_recv _
                (FakeClient.the_allResp
                   (slice_of [Some (mkNote "apples"); None]) nil_error)
                true)|].
    cbn. apply exec_ret.
Defined.

(** ** The list over the HTTP client *)

Lemma add_items_New items :
  add_items New items = Ret (map (fun _ => nil_error) items).
Proof.
  induction items as [|item items IH]; [reflexivity|].
  cbn. cbn in IH. rewrite IH. reflexivity.
Qed.

(** The list made by [New] stands on the [HTTPClient], which keeps
    nothing: whatever items are added, every [AddItem] returns nil, and
    [Items] after them returns an empty slice that is not nil and a nil
    error, without any event on a channel or on [t]. *)
Theorem New_list_keeps_nothing (items : list string) :
  ends_exactly
    (es <- add_items New items ;; r <- Items New ;; Ret (es, r))
    []
    (Returned (map (fun _ => nil_error) items, (slice_of [], nil_error))).
Proof.
  assert (E : exec (es <- add_items New items ;; r <- Items New ;; Ret (es, r))
                [] (Returned (map (fun _ => nil_error) items,
                              (slice_of [], nil_error)))).
  { rewrite add_items_New. cbn. constructor. }
  split; [exact E|].
  intros tr o' H. cbn [app] in H. exact (exec_end_nil E H).
Qed.

(** ** The list over the double *)

(** A test of the shape of [TestGroceryListAll], for any notes and any
    error: with [AssertAll] supplying notes that are no nil pointers,
    [Items] returns their texts and nil when the supplied error is nil,
    and an empty slice with that error otherwise; then [AssertDone]
    returns after [Close], and nothing is reported. *)
Theorem Items_over_the_double (notes : slice (ptr Note)) (ns : list Note)
  (e : error) :
  elems_of notes = map Some ns ->
  always_ends
    (fun c =>
       driver c =
         Ret (if is_nil_error e then (slice_of (map Text ns), nil_error)
              else (slice_of [], e))
       /\ verifier c = Ret tt
       /\ closed (sh c) = true
       /\ failures (sh c) = [])
    (start (r <- Items TestGroceryList.list ;; FakeClient.AssertDone ;; Ret r)
       (FakeClient.AssertAll notes e ;; FakeClient.Close)).
Proof.
  intros Hn. unfold start, NewFakeClient.
  one_step. one_step. rewrite Hn.
  destruct e as [|msg]; cbn.
  - rewrite texts_of_notes. cbn. one_step. one_step. stuck.
  - one_step. one_step. stuck.
Qed.

Lemma Items_over_the_double_witness :
  always_ends
    (fun c =>
       driver c = Ret (slice_of [], nil_error)
       /\ verifier c = Ret tt
       /\ closed (sh c) = true
       /\ failures (sh c) = [])
    (start (r <- Items TestGroceryList.list ;; FakeClient.AssertDone ;; Ret r)
       (FakeClient.AssertAll nil_slice nil_error ;; FakeClient.Close)).
Proof.
  apply (@Items_over_the_double nil_slice [] nil_error).
  reflexivity.
Defined.

(** A test of the shape of the first test of the article, for any item,
    any expected text and any error: [AddItem] returns the error given to
    [AssertCreate]; the item reaches the verifier as the text of the
    note, so nothing is reported when the texts are equal and one
    mismatch is reported otherwise; [AssertDone] returns after [Close]. *)
Theorem AddItem_over_the_double (item expected : string) (e : error) :
  always_ends
    (fun c =>
       driver c = Ret e
       /\ verifier c = Ret tt
       /\ closed (sh c) = true
       /\ failures (sh c) =
            if string_dec item expected then []
            else [ReportError
                    (FakeClient.create_mismatch (Some (mkNote expected))
                       (Some (mkNote item)))])
    (start
       (r <- AddItem TestGroceryList.list item ;;
        FakeClient.AssertDone ;; Ret r)
       (FakeClient.AssertCreate (Some (mkNote expected)) e ;;
        FakeClient.Close)).
Proof.
  unfold start, NewFakeClient.
  one_step.
  destruct (Note_eq_dec (mkNote item) (mkNote expected)) as [E|E];
    destruct (string_dec item expected) as [S|S]; cbn.
  - one_step. one_step. one_step. stuck.
  - inversion E; contradiction.
  - subst; contradiction.
  - one_step. one_step. one_step. one_step. stuck.
Qed.

(** ** Calls and assertions that find no partner *)

(** After paired rounds, a call of the driver that no assertion answers
    never returns: every run ends with the driver waiting at the send of
    that call, the verifier done, no panic, and nothing on [t] but the
    mismatches of the rounds. *)
Theorem unanswered_call_blocks (ops : list op) (asserts : list assertion)
  (o : op) :
  all_paired ops asserts = true ->
  always_ends
    (fun c =>
       blocked (driver c) = true
       /\ returned (driver c) = None
       /\ verifier c = Ret tt
       /\ crash_of c = None
       /\ sent_by Driver (trace (sh c)) = map call_of ops
       /\ failures (sh c) = mismatches ops asserts)
    (start (drive ops (fun rs => r <- run_op o ;; Ret (rs ++ [r])))
       (verify asserts (Ret tt))).
Proof.
  intros Hp. unfold start, NewFakeClient.
  apply rounds; [assumption|]. cbn [app].
  destruct (lockstep_messages ops asserts Hp) as (I1 & _).
  destruct o; (apply always_ends_stuck; [reflexivity|]);
    repeat split; assumption.
Qed.

Lemma unanswered_call_blocks_witness :
  always_ends
    (fun c =>
       blocked (driver c) = true
       /\ returned (driver c) = None
       /\ verifier c = Ret tt
       /\ crash_of c = None
       /\ sent_by Driver (trace (sh c)) = [FakeClient.the_allCall]
       /\ failures (sh c) = [])
    (start
       (drive [OpAll]
          (fun rs => r <- run_op (OpCreate (mkNote "apples")) ;;
                     Ret (rs ++ [r])))
       (verify [AAll nil_slice nil_error] (Ret tt))).
Proof.
  apply (unanswered_call_blocks [OpAll] [AAll nil_slice nil_error]
           (OpCreate (mkNote "apples"))).
  reflexivity.
Defined.

(** After paired rounds, an assertion that no call meets never returns:
    every run ends with the driver holding the supplied responses and the
    verifier waiting at its receive, without panic or report. *)
Theorem unmet_assertion_blocks (ops : list op) (asserts : list assertion)
  (a : assertion) :
  all_paired ops asserts = true ->
  always_ends
    (fun c =>
       driver c = Ret (map supplied asserts)
       /\ blocked (verifier c) = true
       /\ returned (verifier c) = None
       /\ crash_of c = None
       /\ sent_by Verifier (trace (sh c)) = map reply_of asserts
       /\ failures (sh c) = mismatches ops asserts)
    (start (drive ops (fun rs => Ret rs)) (verify asserts (run_assertion a))).
Proof.
  intros Hp. unfold start, NewFakeClient.
  apply rounds; [assumption|]. cbn [app].
  destruct (lockstep_messages ops asserts Hp) as (_ & _ & I3 & _).
  destruct a; (apply always_ends_stuck; [reflexivity|]);
    repeat split; assumption.
Qed.

Lemma unmet_assertion_blocks_witness :
  always_ends
    (fun c =>
       driver c = Ret [RespAll nil_slice nil_error]
       /\ blocked (verifier c) = true
       /\ returned (verifier c) = None
       /\ crash_of c = None
       /\ sent_by Verifier (trace (sh c)) =
            [FakeClient.the_allResp nil_slice nil_error]
       /\ failures (sh c) = [])
    (start (drive [OpAll] (fun rs => Ret rs))
       (verify [AAll nil_slice nil_error]
          (run_assertion (ACreate (mkNote "apples") nil_error)))).
Proof.
  apply (unmet_assertion_blocks [OpAll] [AAll nil_slice nil_error]
           (ACreate (mkNote "apples") nil_error)).
  reflexivity.
Defined.

(** After paired rounds and [Close], one more call of the driver does not
    wait: its send on the closed channel panics, with nothing more on
    [t]. *)
Theorem call_after_Close_panics (ops : list op) (asserts : list assertion)
  (o : op) :
  all_paired ops asserts = true ->
  always_ends
    (fun c =>
       crash_of c = Some SendOnClosedChannel
       /\ verifier c = Ret tt
       /\ closed (sh c) = true
       /\ sent_by Driver (trace (sh c)) = map call_of ops
       /\ failures (sh c) = mismatches ops asserts)
    (start (drive ops (fun rs => r <- run_op o ;; Ret (rs ++ [r])))
       (verify asserts FakeClient.Close)).
Proof.
  intros Hp. unfold start, NewFakeClient.
  apply rounds; [assumption|]. cbn [app].
  destruct (lockstep_messages ops asserts Hp) as (I1 & _).
  destruct o; one_step; one_step;
    (apply always_ends_stuck; [reflexivity|]); cbn;
    rewrite !sent_by_app, I1; cbn; rewrite ?app_nil_r; repeat split.
Qed.

Lemma call_after_Close_panics_witness :
  always_ends
    (fun c =>
       crash_of c = Some SendOnClosedChannel
       /\ verifier c = Ret tt
       /\ closed (sh c) = true
       /\ sent_by Driver (trace (sh c)) = [FakeClient.the_allCall]
       /\ failures (sh c) = [])
    (start (drive [OpAll] (fun rs => r <- run_op OpAll ;; Ret (rs ++ [r])))
       (verify [AAll nil_slice nil_error] FakeClient.Close)).
Proof.
  apply (call_after_Close_panics [OpAll] [AAll nil_slice nil_error] OpAll).
  reflexivity.
Defined.

(** Without [Close], [AssertDone] after the paired rounds never returns:
    every run ends with the driver waiting in [AssertDone] and the
    verifier done, and [AssertDone] has reported nothing. *)
Theorem AssertDone_waits_for_Close (ops : list op)
  (asserts : list assertion) :
  all_paired ops asserts = true ->
  always_ends
    (fun c =>
       blocked (driver c) = true
       /\ verifier c = Ret tt
       /\ closed (sh c) = false
       /\ crash_of c = None
       /\ failures (sh c) = mismatches ops asserts)
    (start (drive ops (fun _ => FakeClient.AssertDone))
       (verify asserts (Ret tt))).
Proof.
  intros Hp. unfold start, NewFakeClient.
  apply rounds; [assumption|]. cbn [app].
  apply always_ends_stuck; [reflexivity|]. repeat split.
Qed.

Lemma AssertDone_waits_for_Close_witness :
  always_ends
    (fun c =>
       blocked (driver c) = true
       /\ verifier c = Ret tt
       /\ closed (sh c) = false
       /\ crash_of c = None
       /\ failures (sh c) = [])
    (start (drive [OpAll] (fun _ => FakeClient.AssertDone))
       (verify [AAll nil_slice nil_error] (Ret tt))).
Proof.
  apply (AssertDone_waits_for_Close [OpAll] [AAll nil_slice nil_error]).
  reflexivity.
Defined.

(** ** How many reports a run of paired rounds leaves *)

Lemma mismatches_length ops :
  forall asserts,
    List.length (mismatches ops asserts) = disagreements ops asserts.
Proof.
  induction ops as [|o ops IH]; intros [|a asserts]; try reflexivity.
  cbn [mismatches disagreements].
  rewrite length_app, length_map, IH. reflexivity.
Qed.

(** A test of paired rounds closed by [Close] and [AssertDone] leaves on
    [t] one report for each round whose created note is not the expected
    one, and no other: the test is failed exactly when some note
    differs. *)
Theorem test_fails_iff_a_note_differs (ops : list op)
  (asserts : list assertion) :
  all_paired ops asserts = true ->
  always_ends
    (fun c =>
       driver c = Ret tt
       /\ verifier c = Ret tt
       /\ List.length (failures (sh c)) = disagreements ops asserts
       /\ test_failed c = negb (Nat.eqb (disagreements ops asserts) 0))
    (start (drive ops (fun _ => FakeClient.AssertDone))
       (verify asserts FakeClient.Close)).
Proof.
  intros Hp. unfold start, NewFakeClient.
  apply rounds; [assumption|]. cbn [app].
  one_step. one_step. apply always_ends_stuck; [reflexivity|].
  unfold test_failed; cbn.
  pose proof (mismatches_length ops asserts) as Hl.
  repeat split; [exact Hl|].
  destruct (mismatches ops asserts); cbn in Hl; rewrite <- Hl; reflexivity.
Qed.

Lemma test_fails_iff_a_note_differs_witness :
  always_ends
    (fun c =>
       driver c = Ret tt
       /\ verifier c = Ret tt
       /\ List.length (failures (sh c)) = 2
       /\ test_failed c = true)
    (start
       (drive [OpCreate (mkNote "apples"); OpCreate (mkNote "pears");
               OpCreate (mkNote "plums")]
          (fun _ => FakeClient.AssertDone))
       (verify [ACreate (mkNote "figs") nil_error;
                ACreate (mkNote "pears") nil_error;
                ACreate (mkNote "limes") nil_error]
          FakeClient.Close)).
Proof.
  apply (test_fails_iff_a_note_differs
           [OpCreate (mkNote "apples"); OpCreate (mkNote "pears");
            OpCreate (mkNote "plums")]
           [ACreate (mkNote "figs") nil_error;
            ACreate (mkNote "pears") nil_error;
            ACreate (mkNote "limes") nil_error]).
  reflexivity.
Defined.

(** ** Close *)

(** [Close] closes the open channel and returns; on the channel already
    closed it panics, so a second [Close] ends the process. *)
Theorem Close_only_once :
  (forall (b : unit) (was_closed : bool) fs tr,
      always_ends
        (fun c =>
           closed (sh c) = true
           /\ failures (sh c) = fs
           /\ if was_closed
              then crash_of c = Some CloseOfClosedChannel
              else verifier c = Ret tt /\ crash_of c = None)
        (mkConfig (Ret b) FakeClient.Close (mkShared 0 [] was_closed fs tr)))
  /\ (forall ops asserts,
         all_paired ops asserts = true ->
         always_ends
           (fun c =>
              driver c = Ret (map supplied asserts)
              /\ crash_of c = Some CloseOfClosedChannel)
           (start (drive ops (fun rs => Ret rs))
              (verify asserts (FakeClient.Close ;; FakeClient.Close)))).
Proof.
  split.
  - intros b [|] fs tr; one_step; stuck.
  - intros ops asserts Hp. unfold start, NewFakeClient.
    apply rounds; [assumption|]. cbn [app].
    one_step. one_step. stuck.
Qed.

Lemma Close_only_once_witness :
  always_ends
    (fun c =>
       driver c = Ret [RespAll nil_slice nil_error]
       /\ crash_of c = Some CloseOfClosedChannel)
    (start (drive [OpAll] (fun rs => Ret rs))
       (verify [AAll nil_slice nil_error]
          (FakeClient.Close ;; FakeClient.Close))).
Proof.
  apply (proj2 Close_only_once [OpAll] [AAll nil_slice nil_error]).
  reflexivity.
Defined.

(** ** The replies and calls a method takes *)

Ltac end_here H :=
  first [ apply (exec_end_nil (exec_ret _) H)
        | apply (exec_end_nil (exec_panic _) H) ].

(** What [Create] and [All] do with the value they receive after their
    call: a reply of their variant gives its fields back, also when
    [more] is false; a nil pointer of that variant panics at the field
    access; anything else, the nil interface included, panics in the type
    assertion. *)
Theorem double_reply_cases :
  (forall n v more,
      ends_exactly (FakeClient.Create n)
        [EvSend (FakeClient.the_createCall n); EvRecv v more]
        (Create_outcome v))
  /\ (forall v more,
         ends_exactly FakeClient.All
           [EvSend FakeClient.the_allCall; EvRecv v more]
           (All_outcome v)).
Proof.
  split.
  - intros n v more. split.
    + eapply exec_step; [apply l_send|].
      eapply exec_step; [apply (l_recv _ v more)|].
      destruct v as [[[?|]|[?|]|[?|]|[?|]]|]; cbn; constructor.
    + intros tr o' H. cbn [app] in H. peel H.
      destruct v as [[[?|]|[?|]|[?|]|[?|]]|]; cbn in *; end_here H.
  - intros v more. split.
    + eapply exec_step; [apply l_send|].
      eapply exec_step; [apply (l_recv _ v more)|].
      destruct v as [[[?|]|[?|]|[?|]|[?|]]|]; cbn; constructor.
    + intros tr o' H. cbn [app] in H. peel H.
      destruct v as [[[?|]|[?|]|[?|]|[?|]]|]; cbn in *; end_here H.
Qed.

Lemma lstep_error_inv {A} args (k p' : prog A) args' :
  lstep (TError args k) (EvError args') p' -> p' = k.
Proof. intros H; inversion H; reflexivity. Qed.

(** [AssertAll] on a call of [All]: it reports nothing and sends the
    reply.  The report "No all call" is made only for a nil pointer of
    type [*allCall], and the reply is sent all the same. *)
Theorem AssertAll_on_a_call (notes : slice (ptr Note)) (e : error)
  (p : ptr allCall) (more : bool) :
  ends_exactly (FakeClient.AssertAll notes e)
    (EvRecv (Some (dyn_allCall p)) more
       :: match p with
          | Some _ => []
          | None => [EvError [arg_string "No all call"]]
          end
       ++ [EvSend (FakeClient.the_allResp notes e)])
    (Returned tt).
Proof.
  split.
  - eapply exec_step; [apply (l_recv _ (Some (dyn_allCall p)) more)|].
    destruct p; cbn.
    + eapply exec_step; [apply l_send|]. constructor.
    + eapply exec_step; [apply l_error|].
      eapply exec_step; [apply l_send|]. constructor.
  - intros tr o' H. destruct p; cbn [app] in H.
    + peel H. end_here H.
    + peel H. apply exec_cons_inv in H. destruct H as (q & Hl & H).
      apply lstep_error_inv in Hl. subst q. peel H. end_here H.
Qed.
